(** * The Kevin Bacon problem: the movie/actor graph of [app.py]

    A shallow embedding of the class [MovieGraph] of [app.py] (the graph
    builder [__init__], the query [path_to_actor] and the query
    [average_number]) together with the parts of NetworkX and Matplotlib the
    class calls, and the properties of the two queries.

    Conventions of the embedding.
    - A Python [str] is the [string] of the bytes of its UTF-8 encoding
      (the encoding [__init__] opens the file with): two strings are equal
      when their bytes are, the separator [/] is one byte that is part of
      no other character, and a character is found at either end of a
      string by its bytes.  A node of the graph is a [string].
    - A Python [set] of strings is a duplicate-free [list string]; only
      membership is ever asked of it.
    - An insertion-ordered Python [dict] is an association list in insertion
      order.  NetworkX keeps the graph as a dict of dicts ([G._adj]), so the
      order in which neighbours are visited is the order of first insertion.
    - The functions of NetworkX are modelled after their implementation:
      [add_edge], the bidirectional breadth-first search behind
      [nx.shortest_path] and the level-by-level search behind
      [nx.shortest_path_length].  Their correctness (a shortest path, all
      the distances) is proved below, so the properties of the queries do
      not rest on the order in which ties are broken.
    - A raised exception is the constructor [Raise]; a loop that would need
      more iterations than the bound the model gives it ends in
      [Unfinished], and the theorems show that this never happens. *)

From Stdlib Require Import String Ascii Bool Arith ZArith QArith Lia List.
From Stdlib Require Import Permutation.
Import ListNotations.
Local Close Scope Q_scope.
Local Open Scope string_scope.
Local Open Scope list_scope.
Local Open Scope nat_scope.

(** ** Strings and sets *)

Abbreviation node := string (only parsing).

(** [x in s] for a set or a list of strings. *)
Definition mem (x : string) (s : list string) : bool :=
  existsb (String.eqb x) s.

(** [s.add(x)]. *)
Definition set_add (x : string) (s : list string) : list string :=
  if mem x s then s else s ++ [x].

(** The bytes of the UTF-8 encoding of a code point, and the [str] of the
    given code points. *)
Definition encode (c : N) : list N :=
  (if c <? 128 then [c]
   else if c <? 2048 then [192 + c / 64; 128 + c mod 64]
   else if c <? 65536 then
     [224 + c / 4096; 128 + (c / 64) mod 64; 128 + c mod 64]
   else
     [240 + c / 262144; 128 + (c / 4096) mod 64; 128 + (c / 64) mod 64;
      128 + c mod 64])%N.

Definition str (code_points : list N) : string :=
  string_of_list_ascii (map ascii_of_N (flat_map encode code_points)).

(** The white space of [str.isspace], which is what [str.strip] removes:
    the code points U+0009 to U+000D, U+001C to U+001F, U+0020, U+0085,
    U+00A0, U+1680, U+2000 to U+200A, U+2028, U+2029, U+202F, U+205F and
    U+3000, each as a string of one character. *)
Definition whitespace : list string :=
  map (fun c => str [c])
    [9; 10; 11; 12; 13; 28; 29; 30; 31; 32; 133; 160; 5760;
     8192; 8193; 8194; 8195; 8196; 8197; 8198; 8199; 8200; 8201; 8202;
     8232; 8233; 8239; 8287; 12288]%N.

(** [ch.isspace()] for a string [ch] of one character. *)
Definition isspace (ch : string) : bool := mem ch whitespace.

(** What follows [w] in [s], when [s] starts with [w]. *)
Fixpoint after (w s : string) : option string :=
  match w, s with
  | EmptyString, _ => Some s
  | String a w', String b s' => if Ascii.eqb a b then after w' s' else None
  | String _ _, EmptyString => None
  end.

(** What follows the first character of [s], when it is one of [chars]. *)
Fixpoint after_any (chars : list string) (s : string) : option string :=
  match chars with
  | [] => None
  | w :: chars' =>
      match after w s with
      | Some r => Some r
      | None => after_any chars' s
      end
  end.

(** [s.lstrip(chars)], one character at a time; no more than [n] characters
    are removed, and [n] is the length of the string where this is used. *)
Fixpoint strip_left (chars : list string) (n : nat) (s : string) : string :=
  match n with
  | 0 => s
  | S n' =>
      match after_any chars s with
      | Some r => strip_left chars n' r
      | None => s
      end
  end.

(** [s[::-1]], byte by byte. *)
Fixpoint reverse (s : string) : string :=
  match s with
  | EmptyString => EmptyString
  | String c s' => (reverse s' ++ String c EmptyString)%string
  end.

(** [s.rstrip(chars)]: the encoding of a character starts with a byte that
    is no continuation byte, so the characters at the end of the string are
    the byte sequences at its end. *)
Definition strip_right (chars : list string) (s : string) : string :=
  reverse (strip_left (map reverse chars) (String.length s) (reverse s)).

Definition lstrip (s : string) : string :=
  strip_left whitespace (String.length s) s.

Definition rstrip (s : string) : string := strip_right whitespace s.

(** [line.strip()]. *)
Definition strip (s : string) : string := rstrip (lstrip s).

(** [s.split(sep)] for a one-character separator, as the first field and the
    list of the remaining fields: the result of [split] is never empty, so
    [movie_list.pop(0)] always succeeds. *)
Fixpoint split_fields (sep : ascii) (s : string) : string * list string :=
  match s with
  | EmptyString => (EmptyString, [])
  | String c s' =>
      let (h, t) := split_fields sep s' in
      if Ascii.eqb c sep then (EmptyString, h :: t) else (String c h, t)
  end.

Definition split (sep : ascii) (s : string) : list string :=
  let (h, t) := split_fields sep s in h :: t.

(** ** Exceptions and results *)

Inductive exn : Type :=
| NodeNotFound        (* networkx.NodeNotFound *)
| NetworkXNoPath      (* networkx.NetworkXNoPath *)
| KeyError
| IndexError
| ZeroDivisionError.

Inductive result (A : Type) : Type :=
| Ok (a : A)
| Raise (e : exn)
| Unfinished.

Arguments Ok {A} a.
Arguments Raise {A} e.
Arguments Unfinished {A}.

Definition bind {A B : Type} (r : result A) (k : A -> result B) : result B :=
  match r with
  | Ok a => k a
  | Raise e => Raise e
  | Unfinished => Unfinished
  end.

Notation "x <- r ;; k" := (bind r (fun x => k))
  (at level 61, r at next level, right associativity).

(** ** [networkx.Graph]

    [G._adj]: every node with the list of its neighbours, nodes and
    neighbours in insertion order. *)

Definition Graph := list (node * list node).

(** [x in G]. *)
Definition has_node (G : Graph) (x : node) : bool := mem x (map fst G).

(** [G.adj[v]] as the list of the keys of the inner dict.  The queries only
    look up nodes they have reached, which are nodes of the graph (see
    [at_level_is_node]); the model gives the empty list for any other
    string. *)
Fixpoint adj (G : Graph) (v : node) : list node :=
  match G with
  | [] => []
  | (u, ns) :: G' => if String.eqb u v then ns else adj G' v
  end.

(** [if u not in self._node: self._adj[u] = {}]. *)
Definition add_node (G : Graph) (u : node) : Graph :=
  if has_node G u then G else G ++ [(u, [])].

(** [self._adj[u][v] = datadict]: a key already there keeps its place. *)
Fixpoint add_neighbour (G : Graph) (u v : node) : Graph :=
  match G with
  | [] => []
  | (x, ns) :: G' =>
      if String.eqb x u then (x, set_add v ns) :: G'
      else (x, ns) :: add_neighbour G' u v
  end.

(** [G.add_edge(u, v)]. *)
Definition add_edge (G : Graph) (u v : node) : Graph :=
  add_neighbour (add_neighbour (add_node (add_node G u) v) u v) v u.

(** ** [MovieGraph.__init__] *)

Record MovieGraph : Type := mkMovieGraph {
  movie_titles : list string;
  actor_names : list string;
  G : Graph
}.

Definition empty_MovieGraph : MovieGraph := mkMovieGraph [] [] [].

(** The body of [for i in movie_list]. *)
Definition add_cast_member (title : string) (self : MovieGraph) (i : string)
  : MovieGraph :=
  mkMovieGraph (movie_titles self)
               (set_add i (actor_names self))
               (add_edge (G self) title i).

(** The body of [for line in lines]. *)
Definition add_line (self : MovieGraph) (line : string) : MovieGraph :=
  let (title, movie_list) := split_fields "/" (strip line) in
  fold_left (add_cast_member title) movie_list
    (mkMovieGraph (set_add title (movie_titles self))
                  (actor_names self) (G self)).

(** [MovieGraph(filename)], from the lines [readlines] gives. *)
Definition MovieGraph_init (lines : list string) : MovieGraph :=
  fold_left add_line lines empty_MovieGraph.

(** ** [networkx.bidirectional_shortest_path]

    [nx.shortest_path(G, source, target)] without a weight is
    [bidirectional_shortest_path]: a breadth-first search from both ends
    that meets in the middle.  [pred] and [succ] are dicts from a node to
    the node it was reached from ([None] at the two roots). *)

Definition dict := list (node * option node).

Definition keys (m : dict) : list node := map fst m.

(** [m[x]]: [None] when the key is missing. *)
Fixpoint lookup (m : dict) (x : node) : option (option node) :=
  match m with
  | [] => None
  | (y, v) :: m' => if String.eqb y x then Some v else lookup m' x
  end.

(** The result of scanning part of a level: the dict and the new fringe,
    and the node at which the two searches met, if they did. *)
Definition scan : Type := dict * list node * option node.

(** [for w in G.adj[v]:
       if w not in mine: fringe.append(w); mine[w] = v
       if w in other: return]
    for the forward search [mine] is [pred] and [other] is [succ], for the
    reverse search the other way round. *)
Fixpoint scan_neighbours (ws : list node) (v : node) (mine other : dict)
  (fringe : list node) : scan :=
  match ws with
  | [] => (mine, fringe, None)
  | w :: ws' =>
      let (mine', fringe') :=
        if mem w (keys mine) then (mine, fringe)
        else (mine ++ [(w, Some v)], fringe ++ [w]) in
      if mem w (keys other) then (mine', fringe', Some w)
      else scan_neighbours ws' v mine' other fringe'
  end.

(** [for v in this_level: ...]. *)
Fixpoint scan_level (g : Graph) (this_level : list node) (mine other : dict)
  (fringe : list node) : scan :=
  match this_level with
  | [] => (mine, fringe, None)
  | v :: vs =>
      match scan_neighbours (adj g v) v mine other fringe with
      | (mine', fringe', Some w) => (mine', fringe', Some w)
      | (mine', fringe', None) => scan_level g vs mine' other fringe'
      end
  end.

Definition is_empty {A : Type} (l : list A) : bool :=
  match l with [] => true | _ => false end.

(** [while forward_fringe and reverse_fringe: ...] and the
    [raise nx.NetworkXNoPath] after it; [fuel] bounds the number of
    iterations. *)
Fixpoint search (fuel : nat) (g : Graph) (pred succ : dict)
  (forward_fringe reverse_fringe : list node) : result (dict * dict * node) :=
  if is_empty forward_fringe || is_empty reverse_fringe
  then Raise NetworkXNoPath
  else
    match fuel with
    | 0 => Unfinished
    | S fuel' =>
        if length forward_fringe <=? length reverse_fringe then
          match scan_level g forward_fringe pred succ [] with
          | (pred', _, Some w) => Ok (pred', succ, w)
          | (pred', fringe, None) =>
              search fuel' g pred' succ fringe reverse_fringe
          end
        else
          match scan_level g reverse_fringe succ pred [] with
          | (succ', _, Some w) => Ok (pred, succ', w)
          | (succ', fringe, None) =>
              search fuel' g pred succ' forward_fringe fringe
          end
    end.

(** [_bidirectional_pred_succ(G, source, target)].  Every iteration of the
    loop that does not leave it puts a new node in [pred] or in [succ], so
    twice the number of nodes bounds the iterations. *)
Definition bidirectional_pred_succ (g : Graph) (source target : node)
  : result (dict * dict * node) :=
  if String.eqb target source
  then Ok ([(target, None)], [(source, None)], source)
  else search (2 * length g) g [(source, None)] [(target, None)]
         [source] [target].

(** [while w is not None: path.append(w); w = m[w]]: the nodes appended. *)
Fixpoint follow (fuel : nat) (m : dict) (w : option node)
  : result (list node) :=
  match w with
  | None => Ok []
  | Some x =>
      match fuel with
      | 0 => Unfinished
      | S fuel' =>
          match lookup m x with
          | None => Raise KeyError
          | Some w' => p <- follow fuel' m w' ;; Ok (x :: p)
          end
      end
  end.

(** [path[-1]]. *)
Definition last_item (path : list node) : result node :=
  match rev path with
  | [] => Raise IndexError
  | x :: _ => Ok x
  end.

Definition bidirectional_shortest_path (g : Graph) (source target : node)
  : result (list node) :=
  if negb (has_node g source) || negb (has_node g target)
  then Raise NodeNotFound
  else
    r <- bidirectional_pred_succ g source target ;;
    let '(pred, succ, w) := r in
    p <- follow (length pred) pred (Some w) ;;
    let path := rev p in
    e <- last_item path ;;
    match lookup succ e with
    | None => Raise KeyError
    | Some w' =>
        q <- follow (length succ) succ w' ;;
        Ok (path ++ q)
    end.

(** [nx.shortest_path(G, source, target)]. *)
Definition shortest_path (g : Graph) (source target : node)
  : result (list node) :=
  bidirectional_shortest_path g source target.

(** ** [networkx.single_source_shortest_path_length]

    [nx.shortest_path_length(G, target=target)] on an undirected graph is
    [dict(single_source_shortest_path_length(G, target))]: a breadth-first
    search level by level; the dict has the nodes in the order they were
    first seen.  (NetworkX also leaves the loop as soon as every node of the
    graph has been seen, which yields the same dict; and the order of the
    nodes within one level differs between versions of NetworkX, which the
    histogram and the mean do not see: [distribution_order].) *)

Definition lengths := list (node * nat).

(** [for w in adj[v]:
       if w not in seen: seen.add(w); nextlevel.append(w); yield (w, level)] *)
Fixpoint visit_neighbours (ws : list node) (level : nat) (out : lengths)
  (nextlevel : list node) : lengths * list node :=
  match ws with
  | [] => (out, nextlevel)
  | w :: ws' =>
      if mem w (map fst out) then visit_neighbours ws' level out nextlevel
      else visit_neighbours ws' level (out ++ [(w, level)]) (nextlevel ++ [w])
  end.

(** [for v in thislevel: ...]. *)
Fixpoint visit_level (g : Graph) (thislevel : list node) (level : nat)
  (out : lengths) (nextlevel : list node) : lengths * list node :=
  match thislevel with
  | [] => (out, nextlevel)
  | v :: vs =>
      let (out', nextlevel') :=
        visit_neighbours (adj g v) level out nextlevel in
      visit_level g vs level out' nextlevel'
  end.

(** [while nextlevel: level += 1; ...]. *)
Fixpoint levels (fuel : nat) (g : Graph) (level : nat) (nextlevel : list node)
  (out : lengths) : result lengths :=
  if is_empty nextlevel then Ok out
  else
    match fuel with
    | 0 => Unfinished
    | S fuel' =>
        let (out', nextlevel') :=
          visit_level g nextlevel (S level) out [] in
        levels fuel' g (S level) nextlevel' out'
    end.

(** Every level but the last has a node not seen before, so the number of
    nodes bounds the iterations. *)
Definition single_source_shortest_path_length (g : Graph) (source : node)
  : result lengths :=
  if negb (has_node g source) then Raise NodeNotFound
  else levels (length g) g 0 [source] [(source, 0)].

(** [nx.shortest_path_length(G, target=target)]. *)
Definition shortest_path_length (g : Graph) (target : node) : result lengths :=
  single_source_shortest_path_length g target.

(** ** [Axes.hist] and the figure

    [ax.hist(values, bins=[i-.5 for i in range(8)])]: seven bins with the
    edges -0.5, 0.5, ..., 6.5, so bin [i] counts the values equal to [i]
    for [i] from 0 to 6, and a value above 6 falls in no bin. *)

Definition bins : list nat := seq 0 7.

Definition hist (values : list nat) : list nat :=
  map (count_occ Nat.eq_dec values) bins.

Record Figure : Type := mkFigure {
  bars : list nat;
  title : string;
  ylabel : string;
  xlabel : string
}.

(** ** [MovieGraph.path_to_actor] *)

(** The test [i not in self.movie_titles]. *)
Definition not_movie (self : MovieGraph) (i : string) : bool :=
  negb (mem i (movie_titles self)).

Definition path_to_actor (self : MovieGraph) (source target : string)
  : result (list string * Z) :=
  shortest_path <- shortest_path (G self) source target ;;
  let actor_path := filter (not_movie self) shortest_path in
  Ok (shortest_path, (Z.of_nat (length actor_path) - 1)%Z).

(** ** [MovieGraph.average_number] *)

(** [values]: for every key of [all_paths] with an even length, half the
    length. *)
Definition degrees (all_paths : lengths) : list nat :=
  map (fun kv => snd kv / 2)
      (filter (fun kv => snd kv mod 2 =? 0) all_paths).

(** [sum(values)/len(values)]: the division fails on an empty list, and
    otherwise the result is kept as the exact quotient of the two integers;
    Python returns the float nearest to it, which is 0 exactly when the
    quotient is. *)
Definition mean (values : list nat) : result Q :=
  match length values with
  | 0 => Raise ZeroDivisionError
  | S n => Ok (Qmake (Z.of_nat (list_sum values)) (Pos.of_succ_nat n))
  end.

Definition average_number (self : MovieGraph) (target : string)
  : result (Figure * Q) :=
  all_paths <- shortest_path_length (G self) target ;;
  let values := degrees all_paths in
  let fig :=
    mkFigure (hist values)
             ("Average score of every actor to " ++ target)%string
             "Number of Actors" "# of Movies Away from Actor" in
  avg <- mean values ;;
  Ok (fig, avg).

(** ** The script: the page and its two buttons

    The part of [app.py] after the class: what Streamlit shows, in order,
    as a list of outputs, and how a run of the script ends.  The widgets
    ([st.button], [st.text_input]) are the inputs of a run, and so are the
    two draws of [np.random.choice].  [str(average)], the decimal writing
    of a float, is not modelled: the output keeps the mean itself. *)

Inductive output : Type :=
| st_title (s : string)
| st_subheader (s : string)
| st_write (s : string)
| st_markdown (s : string)
| st_write_path (path : list string)           (* st.write(path) *)
| st_write_score (label : string) (score : Z)  (* st.write("Score: ", score) *)
| st_pyplot (fig : Figure)
| st_text_average (label : string) (average : Q).

(** How a run of the script ends: at its last line, or at an exception that
    nothing catches. *)
Inductive ending : Type :=
| Finished
| Stopped (e : exn)
| StoppedValueError     (* [np.random.choice] on an empty list *)
| Cut.                  (* a query ended in [Unfinished] *)

Definition run : Type := list output * ending.

Definition done : run := ([], Finished).

(** Show the outputs, then go on. *)
Definition show (o : list output) (k : run) : run := (o ++ fst k, snd k).

(** Call a query and go on with its result; an exception ends the run. *)
Definition call {A : Type} (r : result A) (k : A -> run) : run :=
  match r with
  | Ok a => k a
  | Raise e => ([], Stopped e)
  | Unfinished => ([], Cut)
  end.

(** One block of the script after another. *)
Definition and_then (r k : run) : run :=
  match snd r with
  | Finished => (fst r ++ fst k, snd k)
  | _ => r
  end.

(** What the widgets return in one run. *)
Record widgets : Type := mkWidgets {
  button2 : bool;     (* st.button('Choose random actors') *)
  actor1 : string;    (* st.text_input('Input the first actor: ') *)
  actor2 : string;    (* st.text_input('Input another actor: ') *)
  button1 : bool      (* st.button('Run') *)
}.

(** The outputs before the two [if]s. *)
Definition page : list output :=
  [ st_title "The Kevin Bacon Problem";
    st_subheader "A fun way to learn about graph theory.";
    st_write "Have you ever heard about the six degrees of Kevin Bacon?";
    st_write "Basically, the idea is that every actor in hollywood is typically connected to Kevin Bacon by 6 movies or less.";
    st_write "Think of it like this: ";
    st_markdown "Kevin Bacon was in _Patriots Day (2016)_";
    st_markdown "Mark Falvo was also in _Patriots Day_, and was in _Captain America: Civil War (2016)_";
    st_markdown "Tom Holland was in _Captain America: Civil War_.";
    st_write "So, Kevin Bacon and Tom Holland are just one actor away from each other, giving Tom Holland a score of 2 (or two degrees of separation)";
    st_write "Try it yourself! Click the button below to select randomly or type in two actors' names and see how they're connected.";
    st_write "If an error occurs, make sure the names are spelled correctly." ].

(** The texts below the score. *)
Definition soon : string :=
  "Shortly, two graphs will appear showing the distribution of scores for the selected actors.".

Definition legend_of_run : string :=
  "A score of 1 means that two actors are in the same movie. 2 means that one actor connects them, and so on.".

Definition legend_of_random : string :=
  "A score of 1 means that two actors are in the same movie, 2 means that one actor connects them, etc.".

(** The two columns with the figures and the means. *)
Definition show_averages (obj : MovieGraph) (actor1 actor2 : string) : run :=
  call (average_number obj actor1) (fun r1 =>
    let (fig, average) := r1 in
    show [st_pyplot fig; st_text_average "Average score: " average]
      (call (average_number obj actor2) (fun r2 =>
         let (fig2, average2) := r2 in
         show [st_pyplot fig2; st_text_average "Average score: " average2]
           done))).

(** [if button1: ...]. *)
Definition on_run (obj : MovieGraph) (actor1 actor2 : string) : run :=
  if String.eqb actor1 "" || String.eqb actor2 ""
  then show [st_write "Select two actors."] done
  else
    call (path_to_actor obj actor1 actor2) (fun r =>
      let (path, score) := r in
      show [ st_write_path path;
             st_write_score "Score: " score;
             st_write soon;
             st_write legend_of_run ]
        (show_averages obj actor1 actor2)).

(** A string read back from a NumPy array of strings: the array holds
    strings of one fixed width, the shorter ones padded with NUL
    characters, and reading an element drops every NUL character at its
    end, those of the string itself included. *)
Definition from_array (s : string) : string :=
  strip_right [String zero EmptyString] s.

(** [np.random.choice(a, 1)[0]]: [a] is made an array, and the result is
    one of its elements, the one the draw points at, read back from the
    array; [ValueError] ([None]) on an empty list. *)
Definition choice (a : list string) (draw : nat) : option string :=
  match a with
  | [] => None
  | _ => Some (from_array (nth (draw mod length a) a EmptyString))
  end.

(** [if button2: ...]. *)
Definition on_random (obj : MovieGraph) (draw1 draw2 : nat) : run :=
  let actor_list := actor_names obj in
  match choice actor_list draw1 with
  | None => ([], StoppedValueError)
  | Some actor1 =>
      match choice actor_list draw2 with
      | None => ([], StoppedValueError)
      | Some actor2 =>
          call (path_to_actor obj actor1 actor2) (fun r =>
            let (path, score) := r in
            show [ st_write
              ("Actors selected: " ++ actor1 ++ " & " ++ actor2)%string;
                   st_write_path path;
                   st_write_score "Score: " score;
                   st_write soon;
                   st_write legend_of_random ]
              (show_averages obj actor1 actor2))
      end
  end.

(** One run of the script on the lines of the dataset. *)
Definition script (lines : list string) (w : widgets) (draw1 draw2 : nat)
  : run :=
  let obj := MovieGraph_init lines in
  show page
    (and_then
       (if button1 w then on_run obj (actor1 w) (actor2 w) else done)
       (if button2 w then on_random obj draw1 draw2 else done)).

(** * The vocabulary of the properties *)

Definition is_node (g : Graph) (x : node) : Prop := In x (map fst g).

Definition adjacent (g : Graph) (u v : node) : Prop := In v (adj g u).

(** Every edge is in the adjacency of both its ends. *)
Definition undirected (g : Graph) : Prop :=
  forall u v, adjacent g u v -> adjacent g v u.

(** [walk_len g r x n]: a walk of [n] hops leads from [r] to [x]. *)
Inductive walk_len (g : Graph) (r : node) : node -> nat -> Prop :=
| walk_here : is_node g r -> walk_len g r r 0
| walk_step v x n :
    walk_len g r v n -> adjacent g v x -> walk_len g r x (S n).

(** A list of nodes that leads from [s] to [t] along edges of the graph. *)
Inductive is_path (g : Graph) : node -> node -> list node -> Prop :=
| path_one x : is_node g x -> is_path g x x [x]
| path_cons x y t p :
    adjacent g x y -> is_path g y t p -> is_path g x t (x :: p).

(** [d] is the length of a shortest walk from [r] to [x]. *)
Definition dist_eq (g : Graph) (r x : node) (d : nat) : Prop :=
  walk_len g r x d /\ forall n, walk_len g r x n -> d <= n.

Definition connected (g : Graph) (s t : node) : Prop :=
  exists n, walk_len g s t n.

(** [seen] has every node within [k] hops of [r]. *)
Definition ball (g : Graph) (r : node) (k : nat) (seen : list node) : Prop :=
  forall x n, walk_len g r x n -> n <= k -> In x seen.

(** What [__init__] guarantees: the graph is undirected, every edge joins
    a title to one of its cast members, every actor name is a node and every
    node is a title or an actor name. *)
Record built (self : MovieGraph) : Prop := {
  bt_undirected : undirected (G self);
  bt_edges : forall u v, adjacent (G self) u v ->
      (In u (movie_titles self) /\ In v (actor_names self)) \/
      (In v (movie_titles self) /\ In u (actor_names self));
  bt_actors : forall x, In x (actor_names self) -> is_node (G self) x;
  bt_nodes : forall x, is_node (G self) x ->
      In x (movie_titles self) \/ In x (actor_names self)
}.

(** No string is both a movie title and an actor name. *)
Definition no_collision (self : MovieGraph) : Prop :=
  forall x, In x (movie_titles self) -> In x (actor_names self) -> False.

Definition indicator (b : bool) : nat := if b then 1 else 0.

(** [no_collision] as a test. *)
Definition no_collision_b (self : MovieGraph) : bool :=
  forallb (fun x => negb (mem x (actor_names self))) (movie_titles self).

(** The nodes a bar counts: even distance, and half of it at most 6. *)
Definition counted (all_paths : lengths) : list node :=
  map fst (filter (fun kv => (snd kv mod 2 =? 0) && (snd kv / 2 <? 7))
                  all_paths).

(** The record of a line, as [__init__] reads it: the title and the cast. *)
Definition record_of (line : string) : string * list string :=
  split_fields "/" (strip line).

(** [sep.join(fields)] for a list of fields that is not empty. *)
Fixpoint join (sep : ascii) (h : string) (t : list string) : string :=
  match t with
  | [] => h
  | f :: t' => (h ++ String sep (join sep f t'))%string
  end.

(** The characters of a string. *)
Fixpoint chars (s : string) : list ascii :=
  match s with
  | EmptyString => []
  | String c s' => c :: chars s'
  end.

(** [u] and [v] are the title and a cast member of the line, in either
    order. *)
Definition credit (line : string) (u v : node) : Prop :=
  exists i, In i (snd (record_of line)) /\
            ((u = fst (record_of line) /\ v = i) \/
             (u = i /\ v = fst (record_of line))).

(** Every node is one key of [G._adj] and every neighbour one key of the
    inner dict. *)
Definition simple (g : Graph) : Prop :=
  NoDup (map fst g) /\ forall u, NoDup (adj g u).

(** The string is made of characters of [chars], one after the other. *)
Inductive made_of (chars : list string) : string -> Prop :=
| made_of_nil : made_of chars EmptyString
| made_of_cons w s :
    In w chars -> made_of chars s -> made_of chars (w ++ s)%string.

(** Every character of the string is white space. *)
Definition all_space (s : string) : Prop := made_of whitespace s.

(** ** The invariants of the two searches

    Both searches of NetworkX work level by level.  [at_level] is what
    holds of the set of seen nodes and of the fringe between two levels,
    [in_level] what holds while the nodes of one level are scanned. *)

Record at_level (g : Graph) (r : node) (k : nat) (seen fringe : list node)
  : Prop := {
  lv_nodup : NoDup seen;
  lv_dist : forall x, In x seen -> exists d, d <= k /\ dist_eq g r x d;
  lv_ball : ball g r k seen;
  lv_fringe : forall x, In x fringe <-> dist_eq g r x k;
  lv_size : fringe <> [] -> k < length seen
}.

Record in_level (g : Graph) (r : node) (k : nat) (seen fringe : list node)
  : Prop := {
  md_nodup : NoDup seen;
  md_dist : forall x, In x seen -> exists d, d <= S k /\ dist_eq g r x d;
  md_ball : ball g r k seen;
  md_fringe : forall x, In x fringe <-> In x seen /\ dist_eq g r x (S k);
  md_size : k + length fringe < length seen
}.

(** A dict [pred] or [succ] of the bidirectional search, as a tree rooted
    at [r]: every other key points to a neighbour one hop nearer to [r]. *)
Record tree (g : Graph) (r : node) (m : dict) : Prop := {
  tr_root : lookup m r = Some None;
  tr_none : forall x, lookup m x = Some None -> x = r;
  tr_link : forall x v, lookup m x = Some (Some v) ->
     adjacent g v x /\ In v (keys m) /\
     exists d, dist_eq g r v d /\ dist_eq g r x (S d)
}.

Definition disjoint (m other : dict) : Prop :=
  forall x, In x (keys m) -> ~ In x (keys other).

(** What holds after part of a level was scanned, starting from the dict
    [m] and the fringe [fringe]: either the searches met at a node, or the
    neighbours scanned so far ([covered]) are all in the dict. *)
Definition scan_post (g : Graph) (r : node) (k : nat) (m : dict)
  (fringe : list node) (other : dict) (covered : node -> Prop) (s : scan)
  : Prop :=
  let '(m', fringe', res) := s in
  in_level g r k (keys m') fringe' /\ tree g r m' /\ incl (keys m) (keys m') /\
  length m' + length fringe = length m + length fringe' /\
  match res with
  | None => disjoint m' other /\ forall w, covered w -> In w (keys m')
  | Some w => In w (keys m') /\ In w (keys other)
  end.

(** Between two iterations of the loop: [pred] holds the nodes within [i]
    hops of the source, [succ] the nodes within [j] hops of the target, and
    no node is in both. *)
Record searching (g : Graph) (s t : node) (i j : nat) (pred succ : dict)
  (ff rf : list node) : Prop := {
  sr_fwd : at_level g s i (keys pred) ff;
  sr_pred : tree g s pred;
  sr_rev : at_level g t j (keys succ) rf;
  sr_succ : tree g t succ;
  sr_disjoint : disjoint pred succ
}.

(** The searches met at [w], on a shortest walk from source to target. *)
Record met (g : Graph) (s t : node) (pred succ : dict) (w : node)
  : Prop := {
  mt_pred : tree g s pred;
  mt_succ : tree g t succ;
  mt_in_pred : In w (keys pred);
  mt_in_succ : In w (keys succ);
  mt_dist : exists ds dt,
      dist_eq g s w ds /\ dist_eq g t w dt /\
      ds < length pred /\ dt < length succ /\
      forall n, walk_len g s t n -> ds + dt <= n
}.

(** Every length in the dict is the distance from the source. *)
Definition labelled (g : Graph) (r : node) (out : lengths) : Prop :=
  forall x d, In (x, d) out -> dist_eq g r x d.

(** What holds after part of a level of the single-source search. *)
Definition visit_post (g : Graph) (r : node) (k : nat) (out : lengths)
  (nextlevel : list node) (covered : node -> Prop)
  (res : lengths * list node) : Prop :=
  let (out', nextlevel') := res in
  in_level g r k (map fst out') nextlevel' /\ labelled g r out' /\
  incl (map fst out) (map fst out') /\
  length out' + length nextlevel = length out + length nextlevel' /\
  forall w, covered w -> In w (map fst out').

(** * The datasets of the scenarios *)

(** One movie with two cast members. *)
Definition one_movie : MovieGraph := MovieGraph_init ["Movie A/Alice/Bob"].

(** Two movies that share no cast member. *)
Definition two_movies : MovieGraph :=
  MovieGraph_init ["Movie A/Alice/Bob"; "Movie B/Carol/Dan"].

(** A movie with a single cast member. *)
Definition solo_movie : MovieGraph := MovieGraph_init ["Movie A/Alice"].

(** [X] is the title of one line and a cast member of another. *)
Definition title_in_cast : MovieGraph := MovieGraph_init ["X/A"; "M/X"].

(** [A] and [B] are joined only through [X] and [M2], which are titles and
    cast members alike. *)
Definition titles_in_cast : MovieGraph :=
  MovieGraph_init ["M1/A/X"; "X/M2"; "M2/B"].

(** Two shortest paths lead from [a] to [b]: one through the actor [X], one
    through [T], which is also the title of the last line. *)
Definition two_routes : MovieGraph :=
  MovieGraph_init ["M1/a/X"; "M4/T/b"; "M2/X/b"; "M3/a/T"; "T/z"].

(** Eight actors in a row, each sharing a movie with the next. *)
Definition chain_of_eight : MovieGraph :=
  MovieGraph_init ["M0/A0/A1"; "M1/A1/A2"; "M2/A2/A3"; "M3/A3/A4";
                   "M4/A4/A5"; "M5/A5/A6"; "M6/A6/A7"].

(** * Walks and distances in an undirected graph *)

Lemma mem_In (x : string) (l : list string) : mem x l = true <-> In x l.
Proof.
  unfold mem. rewrite existsb_exists. split.
  - intros [y [Hy He]]. apply String.eqb_eq in He. now subst.
  - intros H. exists x. split; [assumption | apply String.eqb_refl].
Qed.

Lemma mem_not_In (x : string) (l : list string) : mem x l = false <-> ~ In x l.
Proof.
  rewrite <- mem_In. destruct (mem x l); split; intros H;
    try reflexivity; try discriminate; try (intros K; discriminate).
  exfalso. now apply H.
Qed.

Lemma has_node_is_node g x : has_node g x = true <-> is_node g x.
Proof. apply mem_In. Qed.

Lemma adjacent_is_node g u v : adjacent g u v -> is_node g u.
Proof.
  unfold adjacent, is_node. induction g as [|[x ns] g' IH]; simpl.
  - intros [].
  - destruct (String.eqb_spec x u) as [->|Hne]; intros H.
    + now left.
    + right. now apply IH.
Qed.

Section Walks.

Variable g : Graph.
Hypothesis g_undirected : undirected g.

Lemma walk_len_is_node r x n :
  walk_len g r x n -> is_node g r /\ is_node g x.
Proof.
  induction 1 as [Hr | v x n Hw [IHr IHv] Ha].
  - now split.
  - split; [assumption|].
    apply g_undirected in Ha. eapply adjacent_is_node; eassumption.
Qed.

Lemma walk_zero r x : walk_len g r x 0 -> x = r.
Proof. inversion 1; reflexivity. Qed.

Lemma walk_cons r v x n :
  adjacent g r v -> walk_len g v x n -> walk_len g r x (S n).
Proof.
  intros Ha Hw. induction Hw as [Hv | u x n Hw IH Hux].
  - eapply walk_step; [apply walk_here|eassumption].
    eapply adjacent_is_node; eassumption.
  - eapply walk_step; eassumption.
Qed.

Lemma walk_sym s t n : walk_len g s t n -> walk_len g t s n.
Proof.
  induction 1 as [Hs | v x n Hw IH Ha].
  - now apply walk_here.
  - apply walk_cons with v; [now apply g_undirected | assumption].
Qed.

Lemma walk_app s x t a b :
  walk_len g s x a -> walk_len g x t b -> walk_len g s t (a + b).
Proof.
  intros Hsx Hxt. induction Hxt as [Hx | v y b Hw IH Ha].
  - now rewrite Nat.add_0_r.
  - rewrite Nat.add_succ_r. eapply walk_step; eassumption.
Qed.

(** A walk from [s] to [t] passes, after [a] hops, a node that is [b] hops
    from [t]. *)
Lemma walk_split s t n :
  walk_len g s t n ->
  forall a b, a + b = n -> exists x, walk_len g s x a /\ walk_len g t x b.
Proof.
  induction 1 as [Hs | v x n Hw IH Ha]; intros a b Hab.
  - assert (a = 0) by lia. assert (b = 0) by lia. subst.
    exists s. split; now apply walk_here.
  - destruct b as [|b'].
    + exists x. rewrite Nat.add_0_r in Hab. subst a. split.
      * eapply walk_step; eassumption.
      * apply walk_here. apply g_undirected in Ha.
        eapply adjacent_is_node; eassumption.
    + destruct (IH a b') as [y [Hsy Hvy]]; [lia|].
      exists y. split; [assumption|].
      apply walk_cons with v; [now apply g_undirected | assumption].
Qed.

Lemma dist_eq_unique r x d d' : dist_eq g r x d -> dist_eq g r x d' -> d = d'.
Proof.
  intros [Hw Hmin] [Hw' Hmin']. apply Hmin in Hw'. apply Hmin' in Hw. lia.
Qed.

Lemma dist_eq_root r : is_node g r -> dist_eq g r r 0.
Proof. intros Hr. split; [now apply walk_here | intros; lia]. Qed.

Lemma dist_eq_sym s t d : dist_eq g s t d -> dist_eq g t s d.
Proof.
  intros [Hw Hmin]. split; [now apply walk_sym|].
  intros n Hn. apply Hmin. now apply walk_sym.
Qed.

(** A neighbour, not seen yet, of a node at distance [k] is at distance
    [S k], when every node within [k] hops has been seen. *)
Lemma new_node_dist r k seen v w :
  ball g r k seen -> dist_eq g r v k -> adjacent g v w -> ~ In w seen ->
  dist_eq g r w (S k).
Proof.
  intros Hb [Hv _] Ha Hw. split.
  - eapply walk_step; eassumption.
  - intros n Hn. destruct (le_lt_dec (S k) n) as [|Hlt]; [assumption|].
    exfalso. apply Hw. apply (Hb w n); [assumption | lia].
Qed.

(** Once the neighbours of the nodes at distance [k] are seen as well, every
    node within [S k] hops has been seen. *)
Lemma ball_step r k seen seen' :
  ball g r k seen -> incl seen seen' ->
  (forall v w, dist_eq g r v k -> adjacent g v w -> In w seen') ->
  ball g r (S k) seen'.
Proof.
  intros Hb Hincl Hclose x n Hw Hn.
  destruct (in_dec string_dec x seen') as [|Hnot]; [assumption|].
  exfalso. inversion Hw as [Hr | v y m Hv Ha]; subst.
  - apply Hnot, Hincl. apply (Hb x 0); [assumption | lia].
  - apply Hnot. apply (Hclose v x); [|assumption].
    split; [|].
    + assert (m = k) as ->; [|assumption].
      destruct (le_lt_dec k m) as [|Hlt]; [lia|].
      exfalso. apply Hnot, Hincl. apply (Hb x (S m)); [assumption | lia].
    + intros j Hj. destruct (le_lt_dec k j) as [|Hlt]; [assumption|].
      exfalso. apply Hnot, Hincl. apply (Hb x (S j)); [|lia].
      eapply walk_step; eassumption.
Qed.

Lemma is_path_walk s t p :
  is_path g s t p -> walk_len g s t (length p - 1).
Proof.
  induction 1 as [x Hx | x y t p Ha Hp IH].
  - now apply walk_here.
  - simpl. rewrite Nat.sub_0_r.
    assert (length p = S (length p - 1)) as ->.
    { inversion Hp; simpl; lia. }
    eapply walk_cons; eassumption.
Qed.

Lemma is_path_nonempty s t p : is_path g s t p -> exists q, p = s :: q.
Proof. inversion 1; eauto. Qed.

Lemma is_path_snoc s t y p :
  is_path g s t p -> adjacent g t y -> is_path g s y (p ++ [y]).
Proof.
  induction 1 as [x Hx | x z t p Ha Hp IH]; intros Hy; simpl.
  - eapply path_cons; [exact Hy|]. apply path_one.
    apply g_undirected in Hy. eapply adjacent_is_node; eassumption.
  - eapply path_cons; [exact Ha | now apply IH].
Qed.

Lemma is_path_rev s t p : is_path g s t p -> is_path g t s (rev p).
Proof.
  induction 1 as [x Hx | x y t p Ha Hp IH]; simpl.
  - now apply path_one.
  - apply is_path_snoc with (t := y); [assumption | now apply g_undirected].
Qed.

Lemma is_path_app s w y t p q :
  is_path g s w p -> adjacent g w y -> is_path g y t q ->
  is_path g s t (p ++ q).
Proof.
  induction 1 as [x Hx | x z w p Ha Hp IH]; intros Hy Hq; simpl.
  - eapply path_cons; eassumption.
  - eapply path_cons; [exact Ha | now apply IH].
Qed.

Lemma walk_is_path s t n :
  walk_len g s t n -> exists p, is_path g s t p /\ length p = S n.
Proof.
  induction 1 as [Hs | v x n Hw [p [Hp Hl]] Ha].
  - exists [s]. split; [now apply path_one | reflexivity].
  - exists (p ++ [x]). split; [now apply is_path_snoc with (t := v)|].
    rewrite length_app. simpl. lia.
Qed.

End Walks.

(** * Breadth-first levels *)

Section Levels.

Variable g : Graph.
Hypothesis g_undirected : undirected g.
Variable r : node.

Local Abbreviation at_level := (at_level g r).
Local Abbreviation lv_nodup := (lv_nodup g r).
Local Abbreviation lv_dist := (lv_dist g r).
Local Abbreviation lv_ball := (lv_ball g r).
Local Abbreviation lv_fringe := (lv_fringe g r).
Local Abbreviation lv_size := (lv_size g r).
Local Abbreviation in_level := (in_level g r).
Local Abbreviation md_dist := (md_dist g r).
Local Abbreviation md_ball := (md_ball g r).
Local Abbreviation md_fringe := (md_fringe g r).
Local Abbreviation md_size := (md_size g r).
Local Abbreviation tree := (tree g r).
Local Abbreviation scan_post := (scan_post g r).

Lemma at_level_start : is_node g r -> at_level 0 [r] [r].
Proof.
  intros Hr. split.
  - repeat constructor. intros [].
  - intros x [<-|[]]. exists 0. split; [lia | now apply dist_eq_root].
  - intros x n Hw Hn. assert (n = 0) by lia. subst.
    apply walk_zero in Hw. subst. now left.
  - intros x. split.
    + intros [<-|[]]. now apply dist_eq_root.
    + intros [Hw _]. apply walk_zero in Hw. subst. now left.
  - simpl. lia.
Qed.

Lemma in_level_start k seen fringe :
  at_level k seen fringe -> fringe <> [] -> in_level k seen [].
Proof.
  intros [Hnd Hd Hb Hf Hs] Hne. split; try assumption.
  - intros x Hx. destruct (Hd x Hx) as [d [Hle Hdist]]. exists d.
    split; [lia|assumption].
  - intros x. split; [intros []|]. intros [Hx Hdist].
    destruct (Hd x Hx) as [d [Hle Hdist']].
    pose proof (dist_eq_unique g r x _ _ Hdist Hdist'). lia.
  - simpl. specialize (Hs Hne). lia.
Qed.

Lemma in_level_add k seen fringe v w :
  in_level k seen fringe -> dist_eq g r v k -> adjacent g v w ->
  ~ In w seen ->
  in_level k (seen ++ [w]) (fringe ++ [w]) /\ dist_eq g r w (S k).
Proof.
  intros [Hnd Hd Hb Hf Hs] Hv Ha Hw.
  assert (Hdw : dist_eq g r w (S k)) by (eapply new_node_dist; eassumption).
  split; [|assumption]. split.
  - apply NoDup_app; [assumption | repeat constructor; intros [] |].
    intros x Hx [<-|[]]. now apply Hw.
  - intros x Hx. apply in_app_or in Hx. destruct Hx as [Hx|[<-|[]]].
    + now apply Hd.
    + exists (S k). split; [lia|assumption].
  - intros x n Hx Hn. apply in_or_app. left. now apply (Hb x n).
  - intros x. rewrite !in_app_iff, Hf. simpl. split.
    + intros [[Hx Hdx]|[<-|[]]]; split; auto.
    + intros [[Hx|[<-|[]]] Hdx]; auto.
  - rewrite !length_app. simpl. lia.
Qed.

Lemma in_level_finish k seen fringe :
  in_level k seen fringe ->
  (forall v w, dist_eq g r v k -> adjacent g v w -> In w seen) ->
  at_level (S k) seen fringe.
Proof.
  intros [Hnd Hd Hb Hf Hs] Hclose.
  assert (Hb' : ball g r (S k) seen).
  { apply ball_step with seen; try assumption. apply incl_refl. }
  split; try assumption.
  - intros x. rewrite Hf. split; [tauto|]. intros Hdx. split; [|assumption].
    destruct Hdx as [Hw Hmin]. apply (Hb' x (S k)); [assumption|lia].
  - intros Hne. destruct fringe; [congruence|]. simpl in Hs. lia.
Qed.

Lemma at_level_is_node k seen fringe x :
  at_level k seen fringe -> In x seen -> is_node g x.
Proof.
  intros H Hx. destruct (lv_dist _ _ _ H x Hx) as [d [_ [Hw _]]].
  now apply walk_len_is_node in Hw.
Qed.

Lemma seen_bound (seen : list node) :
  NoDup seen -> (forall x, In x seen -> is_node g x) ->
  length seen <= length g.
Proof.
  intros Hnd Hin. rewrite <- (length_map fst g).
  apply NoDup_incl_length; assumption.
Qed.

(** With an empty fringe, everything that can be reached has been seen. *)
Lemma at_level_closed k seen :
  at_level k seen [] -> forall x n, walk_len g r x n -> In x seen.
Proof.
  intros [Hnd Hd Hb Hf Hs].
  assert (Hnone : forall n v, k <= n -> ball g r n seen -> ~ dist_eq g r v n).
  { intros n v Hkn Hbn Hdv.
    destruct (Nat.eq_dec n k) as [->|Hne]; [now apply Hf in Hdv|].
    assert (Hv : In v seen).
    { destruct Hdv as [Hw _]. apply (Hbn v n); [assumption|lia]. }
    destruct (Hd v Hv) as [d [Hle Hd']].
    pose proof (dist_eq_unique g r v _ _ Hdv Hd'). lia. }
  assert (Hall : forall n, ball g r (k + n) seen).
  { induction n as [|n IH].
    - now rewrite Nat.add_0_r.
    - rewrite Nat.add_succ_r. apply ball_step with seen;
        [assumption | apply incl_refl |].
      (* no node is at distance [k + n] *)
      intros v w Hv _. exfalso.
      apply (Hnone (k + n) v); [lia|assumption|assumption]. }
  intros x n Hw. apply (Hall n x n); [assumption | lia].
Qed.

(** ** The dicts [pred] and [succ] *)

Lemma lookup_None m x : lookup m x = None <-> ~ In x (keys m).
Proof.
  induction m as [|[y e] m IH]; simpl.
  - tauto.
  - destruct (String.eqb_spec y x) as [->|Hne].
    + split; [discriminate | intros H; exfalso; apply H; now left].
    + rewrite IH. tauto.
Qed.

Lemma lookup_app m w e x :
  lookup (m ++ [(w, e)]) x =
  match lookup m x with
  | Some v => Some v
  | None => if String.eqb w x then Some e else None
  end.
Proof.
  induction m as [|[y e'] m IH]; simpl.
  - reflexivity.
  - destruct (String.eqb y x); [reflexivity | apply IH].
Qed.

Lemma keys_app m w e : keys (m ++ [(w, e)]) = keys m ++ [w].
Proof. unfold keys. now rewrite map_app. Qed.

Lemma tree_add m v w k :
  tree m -> ~ In w (keys m) -> In v (keys m) -> adjacent g v w ->
  dist_eq g r v k -> dist_eq g r w (S k) ->
  tree (m ++ [(w, Some v)]).
Proof.
  intros [Hroot Hnone Hlink] Hw Hvm Ha Hv Hdw. split.
  - rewrite lookup_app, Hroot. reflexivity.
  - intros x. rewrite lookup_app. destruct (lookup m x) eqn:E.
    + intros [= ->]. now apply Hnone.
    + destruct (String.eqb w x); discriminate.
  - intros x u. rewrite lookup_app, keys_app, in_app_iff.
    destruct (lookup m x) eqn:E.
    + intros [= ->]. destruct (Hlink x u E) as [H1 [H2 H3]]. auto.
    + destruct (String.eqb_spec w x) as [->|]; [|discriminate].
      intros [= <-]. split; [assumption|]. split; [now left|].
      exists k. now split.
Qed.

Lemma tree_start : tree [(r, None)].
Proof.
  split; simpl.
  - now rewrite String.eqb_refl.
  - intros x. destruct (String.eqb_spec r x); [auto|discriminate].
  - intros x v. destruct (String.eqb r x); discriminate.
Qed.

Lemma follow_None fuel m : follow fuel m None = Ok [].
Proof. destruct fuel; reflexivity. Qed.

(** Following the dict from a node leads back to the root along a shortest
    walk. *)
Lemma follow_tree m :
  tree m ->
  forall d fuel x, dist_eq g r x d -> In x (keys m) -> d < fuel ->
  exists q, follow fuel m (Some x) = Ok q /\ is_path g x r q /\ length q = S d.
Proof.
  intros [Hroot Hnone Hlink].
  induction d as [|d IH]; intros fuel x Hd Hx Hfuel;
    (destruct fuel as [|fuel]; [lia|]); simpl;
    destruct (lookup m x) as [[v|]|] eqn:E.
  - destruct (Hlink x v E) as [_ [_ [d' [_ Hd']]]].
    pose proof (dist_eq_unique g r x _ _ Hd Hd'). lia.
  - apply Hnone in E. subst x. exists [r]. rewrite follow_None.
    repeat split. apply path_one. destruct Hd as [Hw _].
    now apply walk_len_is_node in Hw.
  - apply lookup_None in E. contradiction.
  - destruct (Hlink x v E) as [Ha [Hvm [d' [Hv Hd']]]].
    pose proof (dist_eq_unique g r x _ _ Hd Hd') as Heq.
    injection Heq as <-.
    destruct (IH fuel v Hv Hvm) as [q [Hq [Hp Hl]]]; [lia|].
    rewrite Hq. simpl. exists (x :: q). repeat split.
    + eapply path_cons; [apply g_undirected; exact Ha | exact Hp].
    + simpl. now rewrite Hl.
  - apply Hnone in E. subst x. destruct Hd as [Hw Hmin].
    assert (S d <= 0); [|lia]. apply Hmin, walk_here.
    now apply walk_len_is_node in Hw.
  - apply lookup_None in E. contradiction.
Qed.

(** ** One level of the bidirectional search *)

Lemma scan_neighbours_spec k v other :
  dist_eq g r v k ->
  forall ws m fringe,
  (forall w, In w ws -> adjacent g v w) ->
  in_level k (keys m) fringe -> tree m -> disjoint m other ->
  scan_post k m fringe other (fun w => In w ws)
    (scan_neighbours ws v m other fringe).
Proof.
  intros Hv. induction ws as [|w ws IH]; intros m fringe Hws Hin Ht Hdis.
  - simpl. repeat apply conj; auto using incl_refl. intros w [].
  - simpl.
    assert (Hvm : In v (keys m)).
    { destruct Hv as [Hw _]. apply (md_ball _ _ _ Hin v k); [assumption|lia]. }
    set (st := if mem w (keys m) then (m, fringe)
               else (m ++ [(w, Some v)], fringe ++ [w])).
    assert (Hst : in_level k (keys (fst st)) (snd st) /\ tree (fst st) /\
                  incl (keys m) (keys (fst st)) /\
                  length (fst st) + length fringe =
                    length m + length (snd st) /\
                  In w (keys (fst st)) /\
                  forall x, In x (keys (fst st)) -> In x (keys m) \/ x = w).
    { unfold st. destruct (mem w (keys m)) eqn:E; simpl.
      - apply mem_In in E. repeat apply conj; auto using incl_refl.
      - apply mem_not_In in E.
        assert (Ha : adjacent g v w) by (apply Hws; now left).
        destruct (in_level_add k (keys m) fringe v w Hin Hv Ha E)
          as [Hin' Hdw].
        rewrite keys_app. repeat apply conj.
        + assumption.
        + eapply tree_add; eassumption.
        + apply incl_appl, incl_refl.
        + rewrite !length_app. simpl. lia.
        + apply in_or_app. right. now left.
        + intros x Hx. apply in_app_or in Hx.
          destruct Hx as [Hx|[<-|[]]]; auto. }
    destruct st as [m1 fr1]. simpl in Hst.
    destruct Hst as (Hin1 & Ht1 & Hincl1 & Hlen1 & Hw1 & Hnew).
    destruct (mem w (keys other)) eqn:Eo.
    + apply mem_In in Eo. simpl. repeat apply conj; assumption.
    + apply mem_not_In in Eo.
      assert (Hdis1 : disjoint m1 other).
      { intros x Hx. destruct (Hnew x Hx) as [Hx' | ->]; auto. }
      specialize (IH m1 fr1 (fun w' H => Hws w' (or_intror H)) Hin1 Ht1 Hdis1).
      unfold scan_post in *.
      destruct (scan_neighbours ws v m1 other fr1) as [[m' fr'] res].
      destruct IH as (A & B & C & D & E).
      repeat apply conj; try assumption.
      * eapply incl_tran; eassumption.
      * lia.
      * destruct res as [u|]; [exact E|].
        destruct E as [E1 E2]. split; [assumption|].
        intros w' [<-|Hw']; [now apply C | now apply E2].
Qed.

Lemma scan_level_spec k other :
  forall this_level m fringe,
  (forall v, In v this_level -> dist_eq g r v k) ->
  in_level k (keys m) fringe -> tree m -> disjoint m other ->
  scan_post k m fringe other
    (fun w => exists v, In v this_level /\ adjacent g v w)
    (scan_level g this_level m other fringe).
Proof.
  induction this_level as [|v vs IH]; intros m fringe Hlvl Hin Ht Hdis.
  - simpl. repeat apply conj; auto using incl_refl. intros w [v [[] _]].
  - simpl.
    pose proof (scan_neighbours_spec k v other (Hlvl v (or_introl eq_refl))
                  (adj g v) m fringe (fun w H => H) Hin Ht Hdis) as H.
    unfold scan_post in *.
    destruct (scan_neighbours (adj g v) v m other fringe) as [[m1 fr1] [u|]].
    + destruct H as (A & B & C & D & E1 & E2). repeat apply conj; assumption.
    + destruct H as (A & B & C & D & E1 & E2).
      specialize (IH m1 fr1 (fun v' H => Hlvl v' (or_intror H)) A B E1).
      destruct (scan_level g vs m1 other fr1) as [[m' fr'] res].
      destruct IH as (A' & B' & C' & D' & E').
      repeat apply conj; try assumption.
      * eapply incl_tran; eassumption.
      * lia.
      * destruct res as [u|]; [exact E'|].
        destruct E' as [E1' E2']. split; [assumption|].
        intros w [v' [[<-|Hv'] Ha]].
        -- apply C', E2. exact Ha.
        -- apply E2'. exists v'. now split.
Qed.

(** A whole level: from [at_level k] to [at_level (S k)], unless the
    searches met. *)
Lemma scan_whole_level k other m fringe :
  at_level k (keys m) fringe -> fringe <> [] -> tree m -> disjoint m other ->
  let '(m', fringe', res) := scan_level g fringe m other [] in
  tree m' /\ length m' = length m + length fringe' /\
  match res with
  | None => at_level (S k) (keys m') fringe' /\ disjoint m' other
  | Some w =>
      In w (keys m') /\ In w (keys other) /\
      exists d, d <= S k /\ d < length m' /\ dist_eq g r w d
  end.
Proof.
  intros Hat Hne Ht Hdis.
  pose proof (scan_level_spec k other fringe m []
                (fun v H => proj1 (lv_fringe _ _ _ Hat v) H)
                (in_level_start _ _ _ Hat Hne) Ht Hdis) as H.
  unfold scan_post in H.
  destruct (scan_level g fringe m other []) as [[m' fr'] res].
  destruct H as (A & B & C & D & E). simpl in D.
  split; [assumption|]. split; [lia|].
  destruct res as [w|].
  - destruct E as [E1 E2]. repeat apply conj; try assumption.
    destruct (md_dist _ _ _ A w E1) as [d [Hle Hd]].
    exists d. split; [assumption|]. split; [|assumption].
    pose proof (md_size _ _ _ A) as Hs. unfold keys in Hs.
    rewrite length_map in Hs.
    destruct (Nat.eq_dec d (S k)) as [->|]; [|lia].
    assert (Hfr : In w fr') by (apply (md_fringe _ _ _ A); now split).
    destruct fr'; [destruct Hfr | simpl in Hs; lia].
  - destruct E as [E1 E2]. split; [|assumption].
    apply in_level_finish; [assumption|].
    intros v w Hv Ha. apply E2. exists v. split; [|assumption].
    now apply (lv_fringe _ _ _ Hat).
Qed.

End Levels.

(** * Correctness of [bidirectional_shortest_path] *)

Lemma length_keys (m : dict) : length (keys m) = length m.
Proof. apply length_map. Qed.

Lemma disjoint_sym m other : disjoint m other -> disjoint other m.
Proof. intros H x Hx Hx'. exact (H x Hx' Hx). Qed.

Lemma search_eq fuel g pred succ ff rf :
  search fuel g pred succ ff rf =
  if is_empty ff || is_empty rf then Raise NetworkXNoPath
  else
    match fuel with
    | 0 => Unfinished
    | S fuel' =>
        if length ff <=? length rf then
          match scan_level g ff pred succ [] with
          | (pred', _, Some w) => Ok (pred', succ, w)
          | (pred', fringe, None) => search fuel' g pred' succ fringe rf
          end
        else
          match scan_level g rf succ pred [] with
          | (succ', _, Some w) => Ok (pred, succ', w)
          | (succ', fringe, None) => search fuel' g pred succ' ff fringe
          end
    end.
Proof. destruct fuel; reflexivity. Qed.

Section Search.

Variable g : Graph.
Hypothesis g_undirected : undirected g.
Variables s t : node.

Local Abbreviation searching := (searching g s t).
Local Abbreviation sr_fwd := (sr_fwd g s t).
Local Abbreviation sr_pred := (sr_pred g s t).
Local Abbreviation sr_rev := (sr_rev g s t).
Local Abbreviation sr_succ := (sr_succ g s t).
Local Abbreviation sr_disjoint := (sr_disjoint g s t).
Local Abbreviation met := (met g s t).

Lemma far_apart i j pred succ ff rf :
  searching i j pred succ ff rf ->
  forall n, walk_len g s t n -> i + j < n.
Proof.
  intros H n Hw. destruct (le_lt_dec n (i + j)) as [Hle|]; [|assumption].
  exfalso.
  destruct (walk_split g g_undirected s t n Hw (Nat.min i n) (n - Nat.min i n))
    as [x [Hsx Htx]]; [lia|].
  apply (sr_disjoint _ _ _ _ _ _ H x).
  - apply (lv_ball _ _ _ _ _ (sr_fwd _ _ _ _ _ _ H) x (Nat.min i n));
      [assumption | lia].
  - apply (lv_ball _ _ _ _ _ (sr_rev _ _ _ _ _ _ H) x (n - Nat.min i n));
      [assumption | lia].
Qed.

Lemma root_in_keys r m : tree g r m -> In r (keys m).
Proof.
  intros H. destruct (in_dec string_dec r (keys m)) as [|Hn]; [assumption|].
  apply lookup_None in Hn. rewrite (tr_root _ _ _ H) in Hn. discriminate.
Qed.

Lemma search_spec :
  forall fuel i j pred succ ff rf,
  searching i j pred succ ff rf ->
  (ff <> [] -> rf <> [] -> 2 * length g < length pred + length succ + fuel) ->
  match search fuel g pred succ ff rf with
  | Ok (pred', succ', w) => met pred' succ' w
  | Raise e => e = NetworkXNoPath /\ ~ connected g s t
  | Unfinished => False
  end.
Proof.
  induction fuel as [|fuel IH]; intros i j pred succ ff rf Hs Hfuel;
    rewrite search_eq;
    pose proof (sr_fwd _ _ _ _ _ _ Hs) as Hf;
    pose proof (sr_rev _ _ _ _ _ _ Hs) as Hr;
    pose proof (sr_pred _ _ _ _ _ _ Hs) as Hp;
    pose proof (sr_succ _ _ _ _ _ _ Hs) as Hsu;
    pose proof (sr_disjoint _ _ _ _ _ _ Hs) as Hd;
    (destruct ff as [|f ff']; [simpl; split; [reflexivity|];
       intros [n Hw]; apply (Hd t);
       [eapply at_level_closed; eassumption
       |eapply root_in_keys; eassumption]|]);
    (destruct rf as [|r rf']; [simpl; split; [reflexivity|];
       intros [n Hw]; apply walk_sym in Hw; [|assumption]; apply (Hd s);
       [eapply root_in_keys; eassumption
       |eapply at_level_closed; eassumption]|]);
    cbn [is_empty orb].
  - assert (length (keys pred) <= length g).
    { apply seen_bound; [apply (lv_nodup _ _ _ _ _ Hf)|].
      intros x. eapply at_level_is_node; eassumption. }
    assert (length (keys succ) <= length g).
    { apply seen_bound; [apply (lv_nodup _ _ _ _ _ Hr)|].
      intros x. eapply at_level_is_node; eassumption. }
    rewrite length_keys in *.
    assert (2 * length g < length pred + length succ + 0)
      by (apply Hfuel; discriminate).
    lia.
  - assert (Hfne : f :: ff' <> []) by discriminate.
    assert (Hrne : r :: rf' <> []) by discriminate.
    specialize (Hfuel Hfne Hrne).
    pose proof (far_apart _ _ _ _ _ _ Hs) as Hfar.
    pose proof (lv_size _ _ _ _ _ Hf Hfne) as Hsf.
    pose proof (lv_size _ _ _ _ _ Hr Hrne) as Hsr.
    rewrite length_keys in Hsf, Hsr.
    destruct (length (f :: ff') <=? length (r :: rf')).
    + pose proof (scan_whole_level g s i succ pred (f :: ff') Hf Hfne Hp Hd)
        as H.
      destruct (scan_level g (f :: ff') pred succ []) as [[pred' fr'] [w|]].
      * destruct H as (Ht & Hlen & Hw1 & Hw2 & ds & Hle & Hlt & Hds).
        destruct (lv_dist _ _ _ _ _ Hr w Hw2) as [dt [Hlet Hdt]].
        split; try assumption.
        exists ds, dt. repeat (split; [assumption|]). split; [lia|].
        intros n Hn. specialize (Hfar n Hn). lia.
      * destruct H as (Ht & Hlen & Hat & Hdis).
        apply (IH (S i) j); [split; assumption|].
        intros Hne _. destruct fr'; [congruence|]. simpl in Hlen. lia.
    + pose proof (scan_whole_level g t j pred succ (r :: rf') Hr Hrne Hsu
                    (disjoint_sym _ _ Hd)) as H.
      destruct (scan_level g (r :: rf') succ pred []) as [[succ' fr'] [w|]].
      * destruct H as (Ht & Hlen & Hw1 & Hw2 & dt & Hle & Hlt & Hdt).
        destruct (lv_dist _ _ _ _ _ Hf w Hw2) as [ds [Hles Hds]].
        split; try assumption.
        exists ds, dt. repeat (split; [assumption|]). split; [lia|].
        split; [assumption|].
        intros n Hn. specialize (Hfar n Hn). lia.
      * destruct H as (Ht & Hlen & Hat & Hdis).
        apply (IH i (S j)); [split; try assumption; now apply disjoint_sym|].
        intros _ Hne. destruct fr'; [congruence|]. simpl in Hlen. lia.
Qed.

Lemma searching_start :
  is_node g s -> is_node g t -> s <> t ->
  searching 0 0 [(s, None)] [(t, None)] [s] [t].
Proof.
  intros Hs Ht Hne. split.
  - now apply at_level_start.
  - apply tree_start.
  - now apply at_level_start.
  - apply tree_start.
  - intros x [<-|[]] [Heq|[]]. simpl in Heq. congruence.
Qed.

Lemma last_item_rev x q : last_item (rev (x :: q)) = Ok x.
Proof. unfold last_item. now rewrite rev_involutive. Qed.

(** [bidirectional_shortest_path]: for two nodes of the graph, either the
    result is a shortest path from source to target, or [NetworkXNoPath] is
    raised and no walk leads from the one to the other. *)
Theorem bidirectional_shortest_path_spec :
  is_node g s -> is_node g t ->
  (exists p, bidirectional_shortest_path g s t = Ok p /\
             is_path g s t p /\
             forall n, walk_len g s t n -> length p <= S n) \/
  (bidirectional_shortest_path g s t = Raise NetworkXNoPath /\
   ~ connected g s t).
Proof.
  intros Hs Ht. unfold bidirectional_shortest_path.
  rewrite (proj2 (has_node_is_node g s) Hs), (proj2 (has_node_is_node g t) Ht).
  cbn [negb orb]. unfold bidirectional_pred_succ.
  destruct (String.eqb_spec t s) as [->|Hne].
  - left. exists [s]. simpl. rewrite String.eqb_refl. simpl.
    rewrite String.eqb_refl. simpl. split; [reflexivity|].
    split; [now apply path_one | intros; lia].
  - assert (Hne' : s <> t) by congruence.
    pose proof (search_spec (2 * length g) 0 0 _ _ _ _
                  (searching_start Hs Ht Hne')) as H.
    destruct (search (2 * length g) g [(s, None)] [(t, None)] [s] [t])
      as [[[pred succ] w]|e|].
    + left. cbn [bind].
      assert (Hm : met pred succ w) by (apply H; simpl; lia).
      destruct Hm as [Hp Hsu Hwp Hws (ds & dt & Hds & Hdt & Hls & Hlt & Hmin)].
      destruct (follow_tree g g_undirected s pred Hp ds (length pred) w
                  Hds Hwp Hls) as [q [Hq [Hpq Hlq]]].
      rewrite Hq. cbn [bind].
      destruct (is_path_nonempty g w s q Hpq) as [q0 ->].
      rewrite last_item_rev. cbn [bind].
      apply (is_path_rev g g_undirected) in Hpq.
      destruct (lookup succ w) as [[v|]|] eqn:E.
      * destruct (tr_link _ _ _ Hsu w v E) as [Ha [Hv [d [Hdv Hdw]]]].
        pose proof (dist_eq_unique g t w _ _ Hdt Hdw) as ->.
        destruct (follow_tree g g_undirected t succ Hsu d (length succ) v
                    Hdv Hv ltac:(lia)) as [q' [Hq' [Hpq' Hlq']]].
        rewrite Hq'. cbn [bind]. eexists. split; [reflexivity|]. split.
        -- eapply is_path_app; try eassumption. now apply g_undirected.
        -- intros n Hn. specialize (Hmin n Hn).
           rewrite length_app, length_rev, Hlq, Hlq'. lia.
      * apply (tr_none _ _ _ Hsu) in E. subst w.
        rewrite follow_None. cbn [bind]. eexists. split; [reflexivity|].
        rewrite app_nil_r. split; [assumption|].
        intros n Hn. specialize (Hmin n Hn). rewrite length_rev, Hlq. lia.
      * apply lookup_None in E. contradiction.
    + right. cbn [bind]. destruct H as [-> Hnc]; [simpl; lia|]. now split.
    + exfalso. apply H. simpl. lia.
Qed.

End Search.

(** * Correctness of [single_source_shortest_path_length] *)

Lemma levels_eq fuel g level nextlevel out :
  levels fuel g level nextlevel out =
  if is_empty nextlevel then Ok out
  else
    match fuel with
    | 0 => Unfinished
    | S fuel' =>
        let (out', nextlevel') :=
          visit_level g nextlevel (S level) out [] in
        levels fuel' g (S level) nextlevel' out'
    end.
Proof. destruct fuel; reflexivity. Qed.

Section Lengths.

Variable g : Graph.
Hypothesis g_undirected : undirected g.
Variable r : node.

Local Abbreviation labelled := (labelled g r).
Local Abbreviation visit_post := (visit_post g r).

Lemma visit_neighbours_spec k v :
  dist_eq g r v k ->
  forall ws out nextlevel,
  (forall w, In w ws -> adjacent g v w) ->
  in_level g r k (map fst out) nextlevel -> labelled out ->
  visit_post k out nextlevel (fun w => In w ws)
    (visit_neighbours ws (S k) out nextlevel).
Proof.
  intros Hv. induction ws as [|w ws IH]; intros out next Hws Hin Hlab.
  - simpl. repeat apply conj; auto using incl_refl. intros w [].
  - simpl. destruct (mem w (map fst out)) eqn:E.
    + apply mem_In in E.
      specialize (IH out next (fun w' H => Hws w' (or_intror H)) Hin Hlab).
      unfold visit_post in *.
      destruct (visit_neighbours ws (S k) out next) as [out' next'].
      destruct IH as (A & B & C & D & F).
      repeat apply conj; try assumption.
      intros w' [<-|Hw']; [now apply C | now apply F].
    + apply mem_not_In in E.
      assert (Ha : adjacent g v w) by (apply Hws; now left).
      destruct (in_level_add g r k (map fst out) next v w Hin Hv Ha E)
        as [Hin' Hdw].
      assert (Hlab' : labelled (out ++ [(w, S k)])).
      { intros x d Hx. apply in_app_or in Hx.
        destruct Hx as [Hx|[[= <- <-]|[]]]; [now apply Hlab | assumption]. }
      assert (Hmap : map fst (out ++ [(w, S k)]) = map fst out ++ [w])
        by now rewrite map_app.
      rewrite <- Hmap in Hin'.
      specialize (IH _ _ (fun w' H => Hws w' (or_intror H)) Hin' Hlab').
      unfold visit_post in *.
      destruct (visit_neighbours ws (S k) (out ++ [(w, S k)]) (next ++ [w]))
        as [out' next'].
      destruct IH as (A & B & C & D & F).
      rewrite !length_app in D. simpl in D.
      repeat apply conj; try assumption.
      * intros x Hx. apply C. rewrite Hmap. apply in_or_app. now left.
      * lia.
      * intros w' [<-|Hw']; [|now apply F].
        apply C. rewrite Hmap. apply in_or_app. right. now left.
Qed.

Lemma visit_level_spec k :
  forall thislevel out nextlevel,
  (forall v, In v thislevel -> dist_eq g r v k) ->
  in_level g r k (map fst out) nextlevel -> labelled out ->
  visit_post k out nextlevel
    (fun w => exists v, In v thislevel /\ adjacent g v w)
    (visit_level g thislevel (S k) out nextlevel).
Proof.
  induction thislevel as [|v vs IH]; intros out next Hlvl Hin Hlab.
  - simpl. repeat apply conj; auto using incl_refl. intros w [v [[] _]].
  - simpl.
    pose proof (visit_neighbours_spec k v (Hlvl v (or_introl eq_refl))
                  (adj g v) out next (fun w H => H) Hin Hlab) as H.
    unfold visit_post in *.
    destruct (visit_neighbours (adj g v) (S k) out next) as [out1 next1].
    destruct H as (A & B & C & D & F).
    specialize (IH out1 next1 (fun v' H => Hlvl v' (or_intror H)) A B).
    destruct (visit_level g vs (S k) out1 next1) as [out' next'].
    destruct IH as (A' & B' & C' & D' & F').
    repeat apply conj; try assumption.
    + eapply incl_tran; eassumption.
    + lia.
    + intros w [v' [[<-|Hv'] Ha]].
      * apply C', F. exact Ha.
      * apply F'. exists v'. now split.
Qed.

Lemma levels_spec :
  forall fuel k thislevel out,
  at_level g r k (map fst out) thislevel -> labelled out ->
  (thislevel <> [] -> length g < length out + fuel) ->
  exists out',
    levels fuel g k thislevel out = Ok out' /\
    NoDup (map fst out') /\ labelled out' /\
    forall x n, walk_len g r x n -> In x (map fst out').
Proof.
  induction fuel as [|fuel IH]; intros k lvl out Hat Hlab Hfuel;
    rewrite levels_eq;
    (destruct lvl as [|v vs]; [simpl; exists out; repeat apply conj;
       [reflexivity | apply (lv_nodup _ _ _ _ _ Hat) | assumption |
        eapply at_level_closed; eassumption]|]);
    cbn [is_empty];
    assert (Hne : v :: vs <> []) by discriminate;
    specialize (Hfuel Hne).
  - assert (length (map fst out) <= length g).
    { apply seen_bound; [apply (lv_nodup _ _ _ _ _ Hat)|].
      intros x. eapply at_level_is_node; eassumption. }
    rewrite length_map in *. lia.
  - pose proof (visit_level_spec k (v :: vs) out []
                  (fun x H => proj1 (lv_fringe _ _ _ _ _ Hat x) H)
                  (in_level_start _ _ _ _ _ Hat Hne) Hlab) as H.
    unfold visit_post in H.
    destruct (visit_level g (v :: vs) (S k) out []) as [out' next'].
    destruct H as (A & B & C & D & F). simpl in D.
    apply IH; [|assumption|].
    + apply in_level_finish; [assumption|].
      intros u w Hu Ha. apply F. exists u. split; [|assumption].
      now apply (lv_fringe _ _ _ _ _ Hat).
    + intros Hne'. destruct next'; [congruence|]. simpl in D. lia.
Qed.

(** [single_source_shortest_path_length]: for a node of the graph, the
    result has exactly the nodes that can be reached from it, each once and
    with its distance. *)
Theorem single_source_shortest_path_length_spec :
  is_node g r ->
  exists out,
    single_source_shortest_path_length g r = Ok out /\
    NoDup (map fst out) /\
    (forall x d, In (x, d) out <-> dist_eq g r x d) /\
    (forall x, In x (map fst out) <-> connected g r x).
Proof.
  intros Hr. unfold single_source_shortest_path_length.
  rewrite (proj2 (has_node_is_node g r) Hr). cbn [negb].
  destruct (levels_spec (length g) 0 [r] [(r, 0)]) as [out [Ho [Hnd [Hl Hc]]]].
  - now apply at_level_start.
  - intros x d [[= <- <-]|[]]. now apply dist_eq_root.
  - simpl. lia.
  - exists out. split; [assumption|]. split; [assumption|]. split.
    + intros x d. split; [apply Hl|].
      intros [Hw Hmin]. specialize (Hc x d Hw).
      apply in_map_iff in Hc. destruct Hc as [[y d'] [Hy Hin]].
      simpl in Hy. subst y.
      pose proof (Hl x d' Hin) as Hd'.
      assert (d = d') as ->; [|assumption].
      apply (dist_eq_unique g r x); [now split | assumption].
    + intros x. split.
      * intros Hx. apply in_map_iff in Hx. destruct Hx as [[y d] [Hy Hin]].
        simpl in Hy. subst y. exists d. now apply Hl.
      * intros [n Hw]. now apply (Hc x n).
Qed.

End Lengths.

(** * The graph [MovieGraph.__init__] builds *)

Lemma In_set_add x y s : In x (set_add y s) <-> In x s \/ x = y.
Proof.
  unfold set_add. destruct (mem y s) eqn:E.
  - apply mem_In in E. split; [auto|]. intros [H| ->]; assumption.
  - rewrite in_app_iff. simpl. split.
    + intros [H|[<-|[]]]; auto.
    + intros [H| ->]; auto.
Qed.

Lemma adj_app_empty g u x : adj (g ++ [(u, [])]) x = adj g x.
Proof.
  induction g as [|[y ns] g IH]; simpl.
  - now destruct (String.eqb u x).
  - now destruct (String.eqb y x).
Qed.

Lemma adj_add_node g u x : adj (add_node g u) x = adj g x.
Proof.
  unfold add_node. destruct (has_node g u); [reflexivity|].
  apply adj_app_empty.
Qed.

Lemma is_node_add_node g u x :
  is_node (add_node g u) x <-> is_node g x \/ x = u.
Proof.
  unfold add_node. destruct (has_node g u) eqn:E.
  - apply has_node_is_node in E. split; [auto|]. intros [H| ->]; assumption.
  - unfold is_node. rewrite map_app, in_app_iff. simpl. split.
    + intros [H|[<-|[]]]; auto.
    + intros [H| ->]; auto.
Qed.

Lemma keys_add_neighbour g u v : map fst (add_neighbour g u v) = map fst g.
Proof.
  induction g as [|[y ns] g IH]; simpl; [reflexivity|].
  destruct (String.eqb y u); simpl; [reflexivity | now rewrite IH].
Qed.

Lemma adj_add_neighbour g u v x w :
  is_node g u ->
  In w (adj (add_neighbour g u v) x) <-> In w (adj g x) \/ (x = u /\ w = v).
Proof.
  unfold is_node. induction g as [|[y ns] g IH]; simpl; [intros []|].
  intros Hu. destruct (String.eqb_spec y u) as [->|Hyu]; simpl.
  - destruct (String.eqb_spec u x) as [->|Hux].
    + rewrite In_set_add. tauto.
    + split; [auto|]. intros [H|[-> _]]; [assumption | congruence].
  - destruct (String.eqb_spec y x) as [->|Hyx].
    + split; [auto|]. intros [H|[-> _]]; [assumption | congruence].
    + apply IH. destruct Hu as [Hu|Hu]; [congruence | assumption].
Qed.

Lemma is_node_add_edge g a b x :
  is_node (add_edge g a b) x <-> is_node g x \/ x = a \/ x = b.
Proof.
  unfold add_edge, is_node. rewrite !keys_add_neighbour.
  change (is_node (add_node (add_node g a) b) x <->
          is_node g x \/ x = a \/ x = b).
  rewrite !is_node_add_node. tauto.
Qed.

Lemma adjacent_add_edge g a b x w :
  adjacent (add_edge g a b) x w <->
  adjacent g x w \/ (x = a /\ w = b) \/ (x = b /\ w = a).
Proof.
  unfold add_edge, adjacent.
  rewrite adj_add_neighbour.
  - rewrite adj_add_neighbour.
    + rewrite !adj_add_node. tauto.
    + apply is_node_add_node. left. apply is_node_add_node. now right.
  - unfold is_node. rewrite keys_add_neighbour.
    apply is_node_add_node. now right.
Qed.

Lemma built_empty : built empty_MovieGraph.
Proof. split; simpl; try (intros u v []); intros x []. Qed.

Lemma built_add_cast_member title self i :
  built self -> In title (movie_titles self) ->
  built (add_cast_member title self i).
Proof.
  intros [Hu He Ha Hn] Ht. split; simpl.
  - intros u v. rewrite !adjacent_add_edge.
    intros [H|[[-> ->]|[-> ->]]]; auto.
  - intros u v. rewrite adjacent_add_edge, !In_set_add.
    intros [H|[[-> ->]|[-> ->]]]; auto.
    destruct (He u v H) as [[H1 H2]|[H1 H2]]; auto.
  - intros x. rewrite In_set_add, is_node_add_edge.
    intros [H| ->]; auto.
  - intros x. rewrite In_set_add, is_node_add_edge.
    intros [H|[->| ->]]; auto.
    destruct (Hn x H); auto.
Qed.

Lemma built_cast title movie_list :
  forall self, built self -> In title (movie_titles self) ->
  built (fold_left (add_cast_member title) movie_list self).
Proof.
  induction movie_list as [|i l IH]; intros self Hb Ht; simpl;
    [assumption|].
  apply IH; [now apply built_add_cast_member | exact Ht].
Qed.

Lemma built_add_line self line : built self -> built (add_line self line).
Proof.
  intros [Hu He Ha Hn]. unfold add_line.
  destruct (split_fields "/" (strip line)) as [title movie_list].
  apply built_cast.
  - split; simpl; try assumption.
    + intros u v H. rewrite !In_set_add.
      destruct (He u v H) as [[H1 H2]|[H1 H2]]; auto.
    + intros x H. rewrite In_set_add. destruct (Hn x H); auto.
  - simpl. apply In_set_add. now right.
Qed.

Lemma built_init lines : built (MovieGraph_init lines).
Proof.
  unfold MovieGraph_init. generalize built_empty.
  generalize empty_MovieGraph as self.
  induction lines as [|line lines IH]; intros self Hb; simpl;
    [assumption|].
  apply IH. now apply built_add_line.
Qed.

(** ** Movies and actors alternate when no string is both *)

Section Alternation.

Variable self : MovieGraph.
Hypothesis self_built : built self.
Hypothesis self_no_collision : no_collision self.

Lemma edge_flips u v :
  adjacent (G self) u v -> not_movie self v = negb (not_movie self u).
Proof.
  intros H. unfold not_movie.
  destruct (bt_edges self self_built u v H) as [[H1 H2]|[H1 H2]].
  - rewrite (proj2 (mem_In u _) H1).
    destruct (mem v (movie_titles self)) eqn:E; [|reflexivity].
    apply mem_In in E. destruct (self_no_collision v E H2).
  - rewrite (proj2 (mem_In v _) H1).
    destruct (mem u (movie_titles self)) eqn:E; [|reflexivity].
    apply mem_In in E. destruct (self_no_collision u E H2).
Qed.

(** The parity of a walk tells whether its ends are of the same kind. *)
Lemma walk_parity s t n :
  walk_len (G self) s t n ->
  Nat.even n = Bool.eqb (not_movie self s) (not_movie self t).
Proof.
  induction 1 as [Hs | v x n Hw IH Ha].
  - simpl. now destruct (not_movie self s).
  - rewrite Nat.even_succ, <- Nat.negb_even, IH, (edge_flips v x Ha).
    destruct (not_movie self s), (not_movie self v); reflexivity.
Qed.

(** On a path, the nodes that are not movies are every other node. *)
Lemma path_count s t p :
  is_path (G self) s t p ->
  2 * length (filter (not_movie self) p) + 1 =
  length p + indicator (not_movie self s) + indicator (not_movie self t).
Proof.
  induction 1 as [x Hx | x y t p Ha Hp IH]; simpl.
  - destruct (not_movie self x); simpl; lia.
  - pose proof (edge_flips x y Ha) as Hf.
    destruct (not_movie self x), (not_movie self y), (not_movie self t);
      simpl in *; try discriminate; lia.
Qed.

Lemma actor_not_movie x : In x (actor_names self) -> not_movie self x = true.
Proof.
  intros Hx. unfold not_movie.
  destruct (mem x (movie_titles self)) eqn:E; [|reflexivity].
  apply mem_In in E. destruct (self_no_collision x E Hx).
Qed.

(** A node that is not a movie and that a walk reaches is an actor. *)
Lemma reached_actor s t n :
  In s (actor_names self) -> walk_len (G self) s t n ->
  not_movie self t = true -> In t (actor_names self).
Proof.
  intros Hs Hw Hnm. destruct Hw as [Hr | v x n Hw Ha]; [assumption|].
  destruct (bt_edges self self_built v x Ha) as [[H1 H2]|[H1 H2]];
    [assumption|].
  unfold not_movie in Hnm. rewrite (proj2 (mem_In x _) H1) in Hnm.
  discriminate.
Qed.

End Alternation.

(** * The queries *)

(** Reachability can be decided by running the search. *)
Lemma connected_by_search g r x :
  undirected g ->
  match single_source_shortest_path_length g r with
  | Ok out => mem x (map fst out)
  | _ => false
  end = true ->
  connected g r x.
Proof.
  intros Hu H. destruct (has_node g r) eqn:Hr.
  - apply has_node_is_node in Hr.
    destruct (single_source_shortest_path_length_spec g Hu r Hr)
      as [out [Ho [_ [_ Hc]]]].
    rewrite Ho in H. now apply Hc, mem_In.
  - unfold single_source_shortest_path_length in H. rewrite Hr in H.
    discriminate.
Qed.

Lemma not_connected_by_search g r x :
  undirected g ->
  match single_source_shortest_path_length g r with
  | Ok out => mem x (map fst out)
  | _ => false
  end = false ->
  ~ connected g r x.
Proof.
  intros Hu H Hcon.
  assert (Hr : is_node g r).
  { destruct Hcon as [n Hw]. now apply walk_len_is_node in Hw. }
  destruct (single_source_shortest_path_length_spec g Hu r Hr)
    as [out [Ho [_ [_ Hc]]]].
  rewrite Ho in H. apply mem_not_In in H. apply H. now apply Hc.
Qed.

(** The distances are the lengths the search gives. *)
Lemma dist_by_search g r out :
  undirected g ->
  single_source_shortest_path_length g r = Ok out ->
  forall x d, dist_eq g r x d <-> In (x, d) out.
Proof.
  intros Hu Ho x d. destruct (has_node g r) eqn:Hr.
  - apply has_node_is_node in Hr.
    destruct (single_source_shortest_path_length_spec g Hu r Hr)
      as [out' [Ho' [_ [Hd _]]]].
    rewrite Ho in Ho'. injection Ho' as <-. symmetry. apply Hd.
  - unfold single_source_shortest_path_length in Ho. rewrite Hr in Ho.
    discriminate.
Qed.

Section Queries.

Variable self : MovieGraph.
Hypothesis self_undirected : undirected (G self).

(** [path_to_actor] on two nodes of the graph: the shortest path NetworkX
    found, movies included, with the number of its nodes that are not movie
    titles, minus one; or [NetworkXNoPath]. *)
Lemma path_to_actor_spec source target :
  is_node (G self) source -> is_node (G self) target ->
  (exists p,
     path_to_actor self source target =
       Ok (p, (Z.of_nat (length (filter (not_movie self) p)) - 1)%Z) /\
     is_path (G self) source target p /\
     forall n, walk_len (G self) source target n -> length p <= S n) \/
  (path_to_actor self source target = Raise NetworkXNoPath /\
   ~ connected (G self) source target).
Proof.
  intros Hs Ht. unfold path_to_actor, shortest_path.
  destruct (bidirectional_shortest_path_spec (G self) self_undirected
              source target Hs Ht) as [[p [Hp [Hpath Hmin]]]|[Hp Hnc]];
    rewrite Hp; simpl.
  - left. exists p. repeat split; assumption.
  - right. now split.
Qed.

Lemma path_to_actor_connected source target :
  connected (G self) source target ->
  exists p,
    path_to_actor self source target =
      Ok (p, (Z.of_nat (length (filter (not_movie self) p)) - 1)%Z) /\
    is_path (G self) source target p /\
    forall n, walk_len (G self) source target n -> length p <= S n.
Proof.
  intros Hc. destruct Hc as [n Hw].
  destruct (walk_len_is_node (G self) self_undirected _ _ _ Hw) as [Hs Ht].
  destruct (path_to_actor_spec source target Hs Ht) as [H|[_ Hnc]];
    [assumption|].
  exfalso. apply Hnc. now exists n.
Qed.

(** [sum(values)/len(values)] raises no [ZeroDivisionError] on a list that
    is not empty. *)
Lemma mean_defined values :
  values <> [] ->
  mean values =
    Ok (Qmake (Z.of_nat (list_sum values)) (Pos.of_nat (length values))).
Proof.
  intros Hne. unfold mean. destruct values as [|v vs]; [congruence|].
  cbn [length]. now rewrite Pos.of_nat_succ.
Qed.

Lemma degrees_In all_paths x d :
  In (x, d) all_paths -> Nat.even d = true -> In (d / 2) (degrees all_paths).
Proof.
  intros Hin He. unfold degrees. apply in_map_iff. exists (x, d).
  split; [reflexivity|]. apply filter_In. split; [assumption|]. cbn [snd].
  apply Nat.eqb_eq. apply Nat.even_spec in He. destruct He as [k ->].
  rewrite Nat.mul_comm. apply Nat.Div0.mod_mul.
Qed.

(** [average_number] on a node of the graph: the histogram and the mean of
    half the even distances from the target. *)
Lemma average_number_spec target :
  is_node (G self) target ->
  exists all_paths fig avg,
    shortest_path_length (G self) target = Ok all_paths /\
    NoDup (map fst all_paths) /\
    (forall x d, In (x, d) all_paths <-> dist_eq (G self) target x d) /\
    In 0 (degrees all_paths) /\
    mean (degrees all_paths) = Ok avg /\
    bars fig = hist (degrees all_paths) /\
    average_number self target = Ok (fig, avg).
Proof.
  intros Ht. unfold average_number, shortest_path_length.
  destruct (single_source_shortest_path_length_spec (G self)
              self_undirected target Ht) as [out [Ho [Hnd [Hd _]]]].
  assert (H0 : In 0 (degrees out)).
  { apply (degrees_In out target 0); [|reflexivity].
    apply Hd. now apply dist_eq_root. }
  assert (Hne : degrees out <> []) by (intros E; rewrite E in H0; destruct H0).
  exists out.
  exists (mkFigure (hist (degrees out))
            ("Average score of every actor to " ++ target)%string
            "Number of Actors" "# of Movies Away from Actor").
  eexists. rewrite Ho. cbn [bind].
  rewrite (mean_defined _ Hne). cbn [bind].
  repeat (split; [first [eassumption | reflexivity]|]).
  reflexivity.
Qed.

End Queries.

(** ** Checks by computation on a given dataset *)

Lemma In_check (x : string) (l : list string) : mem x l = true -> In x l.
Proof. apply mem_In. Qed.

Lemma not_In_check (x : string) (l : list string) :
  mem x l = false -> ~ In x l.
Proof. apply mem_not_In. Qed.

Lemma is_node_check g x : has_node g x = true -> is_node g x.
Proof. apply has_node_is_node. Qed.

Lemma not_is_node_check g x : has_node g x = false -> ~ is_node g x.
Proof. intros H K. apply has_node_is_node in K. congruence. Qed.

Lemma adjacent_check g u v : mem v (adj g u) = true -> adjacent g u v.
Proof. apply mem_In. Qed.

Lemma no_collision_check self :
  no_collision_b self = true -> no_collision self.
Proof.
  unfold no_collision_b. rewrite forallb_forall. intros H x Ht Ha.
  specialize (H x Ht). apply mem_In in Ha. rewrite Ha in H. discriminate.
Qed.

(** Settles a membership, a node, an edge or the absence of collisions on a
    given dataset by running the test. *)
Ltac by_computation :=
  lazymatch goal with
  | |- is_node _ _ => apply is_node_check
  | |- ~ is_node _ _ => apply not_is_node_check
  | |- adjacent _ _ _ => apply adjacent_check
  | |- no_collision _ => apply no_collision_check
  | |- In _ _ => apply In_check
  | |- ~ In _ _ => apply not_In_check
  | |- _ => idtac
  end;
  vm_compute; reflexivity.

(** * The shortest-actor-path query *)

(** C1, as the code has it: on the graph of the single line
    [Movie A/Alice/Bob] the query from Alice to Bob returns the whole
    shortest path [Alice, Movie A, Bob], the movie included, with degree 1.
    In general, for two connected nodes of a built graph, the query returns
    a shortest path of the graph from source to target, its movie nodes
    included, and the degree is the number of nodes of that path that are
    not in the movie set, minus one; the path from an actor that is no title
    to another node always has a movie node. *)
Theorem C1_path_with_movies_and_actor_degree :
  path_to_actor one_movie "Alice" "Bob" =
    Ok (["Alice"; "Movie A"; "Bob"], 1%Z) /\
  forall lines source target,
    let self := MovieGraph_init lines in
    connected (G self) source target ->
    exists p,
      path_to_actor self source target =
        Ok (p, (Z.of_nat (length (filter (not_movie self) p)) - 1)%Z) /\
      is_path (G self) source target p /\
      (forall n, walk_len (G self) source target n -> length p <= S n) /\
      (source <> target -> not_movie self source = true ->
       exists m, In m p /\ In m (movie_titles self)).
Proof.
  split; [by_computation|].
  intros lines source target self Hc.
  pose proof (built_init lines) as Hb. fold self in Hb.
  destruct (path_to_actor_connected self (bt_undirected _ Hb) source target Hc)
    as [p [Hp [Hpath Hmin]]].
  exists p. repeat (split; [assumption|]).
  intros Hne Hnm. inversion Hpath as [x Hx | x y t q Ha Hq]; subst.
  - congruence.
  - destruct (is_path_nonempty _ _ _ _ Hq) as [q' ->].
    exists y. split; [right; now left|].
    destruct (bt_edges _ Hb source y Ha) as [[H1 _]|[H1 _]]; [|assumption].
    unfold not_movie in Hnm. rewrite (proj2 (mem_In _ _) H1) in Hnm.
    discriminate.
Qed.

Lemma C1_witness :
  connected (G one_movie) "Alice" "Bob" /\
  "Alice" <> "Bob" /\ not_movie one_movie "Alice" = true /\
  exists p,
    path_to_actor one_movie "Alice" "Bob" =
      Ok (p, (Z.of_nat (length (filter (not_movie one_movie) p)) - 1)%Z) /\
    is_path (G one_movie) "Alice" "Bob" p /\
    (forall n, walk_len (G one_movie) "Alice" "Bob" n -> length p <= S n) /\
    ("Alice" <> "Bob" -> not_movie one_movie "Alice" = true ->
     exists m, In m p /\ In m (movie_titles one_movie)).
Proof.
  assert (Hc : connected (G one_movie) "Alice" "Bob").
  { apply connected_by_search;
      [apply (bt_undirected _ (built_init _)) | vm_compute; reflexivity]. }
  split; [exact Hc|]. split; [discriminate|].
  split; [by_computation|].
  exact (proj2 C1_path_with_movies_and_actor_degree
           ["Movie A/Alice/Bob"] "Alice" "Bob" Hc).
Defined.

(** The path the query returns on the scenario of C1 is not the actor-only
    path. *)
Lemma C1_counterexample :
  path_to_actor one_movie "Alice" "Bob" <> Ok (["Alice"; "Bob"], 1%Z).
Proof. vm_compute. discriminate. Qed.

(** C5: when the source or the target is not a node of the graph, the
    query raises [NodeNotFound]. *)
Theorem C5_absent_node_raises_NodeNotFound :
  forall lines source target,
    let self := MovieGraph_init lines in
    ~ is_node (G self) source \/ ~ is_node (G self) target ->
    path_to_actor self source target = Raise NodeNotFound.
Proof.
  intros lines source target self H.
  unfold path_to_actor, shortest_path, bidirectional_shortest_path.
  destruct (has_node (G self) source) eqn:Es;
    destruct (has_node (G self) target) eqn:Et; try reflexivity.
  exfalso. apply has_node_is_node in Es, Et. tauto.
Qed.

Lemma C5_witness :
  (~ is_node (G one_movie) "Alice" \/ ~ is_node (G one_movie) "Zed") /\
  path_to_actor one_movie "Alice" "Zed" = Raise NodeNotFound.
Proof.
  assert (H : ~ is_node (G one_movie) "Alice" \/
              ~ is_node (G one_movie) "Zed").
  { right. by_computation. }
  split; [exact H|].
  exact (C5_absent_node_raises_NodeNotFound
           ["Movie A/Alice/Bob"] "Alice" "Zed" H).
Defined.

(** C6: when source and target are nodes of the graph and no walk leads
    from the one to the other, the query raises [NetworkXNoPath]. *)
Theorem C6_disconnected_raises_NetworkXNoPath :
  forall lines source target,
    let self := MovieGraph_init lines in
    is_node (G self) source -> is_node (G self) target ->
    ~ connected (G self) source target ->
    path_to_actor self source target = Raise NetworkXNoPath.
Proof.
  intros lines source target self Hs Ht Hnc.
  pose proof (built_init lines) as Hb. fold self in Hb.
  destruct (path_to_actor_spec self (bt_undirected _ Hb) source target Hs Ht)
    as [[p [_ [Hpath _]]]|[H _]]; [|assumption].
  exfalso. apply Hnc. exists (length p - 1).
  now apply is_path_walk.
Qed.

Lemma C6_witness :
  is_node (G two_movies) "Alice" /\ is_node (G two_movies) "Dan" /\
  ~ connected (G two_movies) "Alice" "Dan" /\
  path_to_actor two_movies "Alice" "Dan" = Raise NetworkXNoPath.
Proof.
  assert (Hs : is_node (G two_movies) "Alice")
    by by_computation.
  assert (Ht : is_node (G two_movies) "Dan")
    by by_computation.
  assert (Hnc : ~ connected (G two_movies) "Alice" "Dan").
  { apply not_connected_by_search;
      [apply (bt_undirected _ (built_init _)) | vm_compute; reflexivity]. }
  repeat (split; [assumption|]).
  exact (C6_disconnected_raises_NetworkXNoPath
           ["Movie A/Alice/Bob"; "Movie B/Carol/Dan"] "Alice" "Dan" Hs Ht Hnc).
Defined.

(** C7, as the code has it: for every actor node [a] of the graph whose
    name is not also a movie title, the query from [a] to [a] returns the
    path [[a]] and the degree 0. *)
Theorem C7_same_actor_degree_zero :
  forall lines a,
    let self := MovieGraph_init lines in
    In a (actor_names self) -> ~ In a (movie_titles self) ->
    path_to_actor self a a = Ok ([a], 0%Z).
Proof.
  intros lines a self Ha Hnm.
  pose proof (bt_actors _ (built_init lines) a Ha) as Hn. fold self in Hn.
  unfold path_to_actor, shortest_path, bidirectional_shortest_path,
    bidirectional_pred_succ.
  rewrite (proj2 (has_node_is_node _ _) Hn), String.eqb_refl. simpl.
  rewrite String.eqb_refl. simpl. rewrite String.eqb_refl. simpl.
  unfold not_movie. rewrite (proj2 (mem_not_In _ _) Hnm). reflexivity.
Qed.

Lemma C7_witness :
  In "Alice" (actor_names one_movie) /\
  ~ In "Alice" (movie_titles one_movie) /\
  path_to_actor one_movie "Alice" "Alice" = Ok (["Alice"], 0%Z).
Proof.
  assert (Ha : In "Alice" (actor_names one_movie)) by by_computation.
  assert (Hnm : ~ In "Alice" (movie_titles one_movie)) by by_computation.
  repeat (split; [assumption|]).
  exact (C7_same_actor_degree_zero ["Movie A/Alice/Bob"] "Alice" Ha Hnm).
Defined.

(** An actor whose name is also a movie title: the query from it to itself
    returns the degree -1. *)
Lemma C7_counterexample :
  In "X" (actor_names title_in_cast) /\ is_node (G title_in_cast) "X" /\
  path_to_actor title_in_cast "X" "X" = Ok (["X"], (-1)%Z) /\
  path_to_actor title_in_cast "X" "X" <> Ok (["X"], 0%Z).
Proof.
  split; [by_computation|].
  split; [by_computation|].
  split; [vm_compute; reflexivity | vm_compute; discriminate].
Qed.

(** ** Degrees and hops *)

(** C2, as the code has it: in a graph built from a dataset in which no
    string is both a movie title and an actor name, for every pair of
    connected actor nodes the query returns a shortest path; its raw hop
    count is twice the degree, so the degree is that count divided by 2,
    an integer that is at least 0, and 0 exactly when source equals
    target. *)
Theorem C2_degree_is_half_the_hops :
  forall lines a b,
    let self := MovieGraph_init lines in
    no_collision self ->
    In a (actor_names self) -> In b (actor_names self) ->
    connected (G self) a b ->
    exists p d,
      path_to_actor self a b = Ok (p, d) /\
      is_path (G self) a b p /\
      (forall n, walk_len (G self) a b n -> length p - 1 <= n) /\
      Z.of_nat (length p - 1) = (2 * d)%Z /\
      (0 <= d)%Z /\ (d = 0%Z <-> a = b).
Proof.
  intros lines a b self Hnc Ha Hb Hc.
  pose proof (built_init lines) as Hbt. fold self in Hbt.
  clearbody self.
  destruct (path_to_actor_connected self (bt_undirected _ Hbt) a b Hc)
    as [p [Hp [Hpath Hmin]]].
  pose proof (path_count self Hbt Hnc a b p Hpath) as Hcount.
  rewrite (actor_not_movie self Hnc a Ha) in Hcount.
  rewrite (actor_not_movie self Hnc b Hb) in Hcount.
  simpl in Hcount.
  exists p, (Z.of_nat (length (filter (not_movie self) p)) - 1)%Z.
  split; [assumption|]. split; [assumption|].
  split; [intros n Hn; specialize (Hmin n Hn); lia|].
  split; [lia|]. split; [lia|]. split.
  - intros Hd. inversion Hpath as [x Hx | x y t q Hxy Hq]; subst;
      [reflexivity|].
    destruct (is_path_nonempty _ _ _ _ Hq) as [q' ->].
    simpl in Hcount, Hd. lia.
  - intros <-.
    assert (Hw : walk_len (G self) a a 0).
    { apply walk_here. destruct Hc as [n Hw].
      now apply (walk_len_is_node _ (bt_undirected _ Hbt)) in Hw. }
    specialize (Hmin 0 Hw). lia.
Qed.

Lemma C2_witness :
  no_collision one_movie /\
  In "Alice" (actor_names one_movie) /\ In "Bob" (actor_names one_movie) /\
  connected (G one_movie) "Alice" "Bob" /\
  exists p d,
    path_to_actor one_movie "Alice" "Bob" = Ok (p, d) /\
    is_path (G one_movie) "Alice" "Bob" p /\
    (forall n, walk_len (G one_movie) "Alice" "Bob" n -> length p - 1 <= n) /\
    Z.of_nat (length p - 1) = (2 * d)%Z /\
    (0 <= d)%Z /\ (d = 0%Z <-> "Alice" = "Bob").
Proof.
  assert (Hnc : no_collision one_movie)
    by by_computation.
  assert (Ha : In "Alice" (actor_names one_movie))
    by by_computation.
  assert (Hb : In "Bob" (actor_names one_movie))
    by by_computation.
  assert (Hc : connected (G one_movie) "Alice" "Bob").
  { apply connected_by_search;
      [apply (bt_undirected _ (built_init _)) | vm_compute; reflexivity]. }
  repeat (split; [assumption|]).
  exact (C2_degree_is_half_the_hops ["Movie A/Alice/Bob"] "Alice" "Bob"
           Hnc Ha Hb Hc).
Defined.

(** Two actors that are no movie titles, joined through nodes that are
    titles and cast members alike: the shortest path has 4 hops and the
    degree is 1, not 2. *)
Lemma C2_counterexample :
  In "A" (actor_names titles_in_cast) /\
  In "B" (actor_names titles_in_cast) /\
  ~ In "A" (movie_titles titles_in_cast) /\
  ~ In "B" (movie_titles titles_in_cast) /\
  path_to_actor titles_in_cast "A" "B" =
    Ok (["A"; "M1"; "X"; "M2"; "B"], 1%Z) /\
  (forall n, walk_len (G titles_in_cast) "A" "B" n -> 4 <= n) /\
  (Z.of_nat 4 / 2 <> 1)%Z.
Proof.
  split; [by_computation|].
  split; [by_computation|].
  split; [by_computation|].
  split; [by_computation|].
  assert (Hp : path_to_actor titles_in_cast "A" "B" =
               Ok (["A"; "M1"; "X"; "M2"; "B"], 1%Z))
    by (vm_compute; reflexivity).
  split; [exact Hp|]. split; [|vm_compute; discriminate].
  intros n Hn.
  destruct (path_to_actor_connected titles_in_cast
              (bt_undirected _ (built_init _)) "A" "B"
              (ex_intro _ n Hn)) as [p [Hp' [_ Hmin]]].
  rewrite Hp in Hp'. injection Hp' as <- _.
  specialize (Hmin n Hn). simpl in Hmin. lia.
Qed.

(** C3, as the code has it: in a graph built from a dataset in which no
    string is both a movie title and an actor name, every walk between two
    actor nodes has an even number of raw hops, and so every path between
    them has an odd number of nodes (actor, movie, actor, ..., actor). *)
Theorem C3_actor_paths_have_even_hops :
  forall lines a b,
    let self := MovieGraph_init lines in
    no_collision self ->
    In a (actor_names self) -> In b (actor_names self) ->
    (forall n, walk_len (G self) a b n -> Nat.even n = true) /\
    (forall p, is_path (G self) a b p ->
       Nat.even (length p - 1) = true /\ Nat.odd (length p) = true).
Proof.
  intros lines a b self Hnc Ha Hb.
  pose proof (built_init lines) as Hbt. fold self in Hbt.
  clearbody self.
  assert (Hw : forall n, walk_len (G self) a b n -> Nat.even n = true).
  { intros n Hn. rewrite (walk_parity self Hbt Hnc a b n Hn).
    rewrite (actor_not_movie self Hnc a Ha), (actor_not_movie self Hnc b Hb).
    reflexivity. }
  split; [exact Hw|]. intros p Hp.
  pose proof (Hw _ (is_path_walk _ _ _ _ Hp)) as He. split; [exact He|].
  destruct (is_path_nonempty _ _ _ _ Hp) as [q ->].
  simpl in He. rewrite Nat.sub_0_r in He.
  cbn [length]. now rewrite Nat.odd_succ.
Qed.

Lemma C3_witness :
  no_collision one_movie /\
  In "Alice" (actor_names one_movie) /\ In "Bob" (actor_names one_movie) /\
  (forall n, walk_len (G one_movie) "Alice" "Bob" n -> Nat.even n = true) /\
  (forall p, is_path (G one_movie) "Alice" "Bob" p ->
     Nat.even (length p - 1) = true /\ Nat.odd (length p) = true).
Proof.
  assert (Hnc : no_collision one_movie)
    by by_computation.
  assert (Ha : In "Alice" (actor_names one_movie))
    by by_computation.
  assert (Hb : In "Bob" (actor_names one_movie))
    by by_computation.
  repeat (split; [assumption|]).
  exact (C3_actor_paths_have_even_hops ["Movie A/Alice/Bob"] "Alice" "Bob"
           Hnc Ha Hb).
Defined.

(** Two distinct actors of one movie: the path between them, Alice, Movie A,
    Bob, has 2 raw hops, an even number. *)
Lemma C3_counterexample :
  "Alice" <> "Bob" /\
  In "Alice" (actor_names one_movie) /\ In "Bob" (actor_names one_movie) /\
  is_path (G one_movie) "Alice" "Bob" ["Alice"; "Movie A"; "Bob"] /\
  walk_len (G one_movie) "Alice" "Bob" 2 /\
  Nat.odd 2 = false.
Proof.
  split; [discriminate|].
  split; [by_computation|].
  split; [by_computation|].
  assert (Hp : is_path (G one_movie) "Alice" "Bob"
                 ["Alice"; "Movie A"; "Bob"]).
  { apply path_cons with (y := "Movie A");
      [by_computation|].
    apply path_cons with (y := "Bob");
      [by_computation|].
    apply path_one. by_computation. }
  split; [exact Hp|]. split; [|reflexivity].
  exact (is_path_walk _ _ _ _ Hp).
Qed.

(** Without the condition on the names the hops need not be even: [A] and
    [B] are actors, [X] is a title and a cast member, and the walk
    A, M1, X, B has 3 hops. *)
Example odd_walk_through_title_in_cast :
  let self := MovieGraph_init ["M1/A/X"; "X/B"] in
  In "A" (actor_names self) /\ In "B" (actor_names self) /\
  is_path (G self) "A" "B" ["A"; "M1"; "X"; "B"].
Proof.
  split; [by_computation|]. split; [by_computation|].
  apply path_cons with (y := "M1"); [by_computation|].
  apply path_cons with (y := "X"); [by_computation|].
  apply path_cons with (y := "B"); [by_computation|].
  apply path_one. by_computation.
Qed.

(** C8, as the code has it: in a graph built from a dataset in which no
    string is both a movie title and an actor name, for every pair of
    connected actor nodes the degree the query returns from [a] to [b] is
    the degree it returns from [b] to [a]. *)
Theorem C8_degree_is_symmetric :
  forall lines a b,
    let self := MovieGraph_init lines in
    no_collision self ->
    In a (actor_names self) -> In b (actor_names self) ->
    connected (G self) a b ->
    exists pab pba d,
      path_to_actor self a b = Ok (pab, d) /\
      path_to_actor self b a = Ok (pba, d).
Proof.
  intros lines a b self Hnc Ha Hb Hc.
  pose proof (built_init lines) as Hbt. fold self in Hbt.
  clearbody self.
  pose proof (bt_undirected _ Hbt) as Hu.
  assert (Hc' : connected (G self) b a).
  { destruct Hc as [n Hn]. exists n. now apply walk_sym. }
  destruct (path_to_actor_connected self Hu a b Hc)
    as [pab [Hab [Hpab Hminab]]].
  destruct (path_to_actor_connected self Hu b a Hc')
    as [pba [Hba [Hpba Hminba]]].
  pose proof (path_count self Hbt Hnc a b pab Hpab) as Hcab.
  pose proof (path_count self Hbt Hnc b a pba Hpba) as Hcba.
  rewrite (actor_not_movie self Hnc a Ha), (actor_not_movie self Hnc b Hb)
    in Hcab, Hcba.
  simpl in Hcab, Hcba.
  pose proof (Hminab _ (walk_sym _ Hu _ _ _ (is_path_walk _ _ _ _ Hpba))) as H1.
  pose proof (Hminba _ (walk_sym _ Hu _ _ _ (is_path_walk _ _ _ _ Hpab))) as H2.
  destruct (is_path_nonempty _ _ _ _ Hpab) as [qab Eab].
  destruct (is_path_nonempty _ _ _ _ Hpba) as [qba Eba].
  assert (Hlen : length pab = length pba).
  { rewrite Eab, Eba in *. simpl in H1, H2 |- *. lia. }
  exists pab, pba, (Z.of_nat (length (filter (not_movie self) pab)) - 1)%Z.
  split; [assumption|]. rewrite Hba. do 2 f_equal. lia.
Qed.

Lemma C8_witness :
  no_collision one_movie /\
  In "Alice" (actor_names one_movie) /\ In "Bob" (actor_names one_movie) /\
  connected (G one_movie) "Alice" "Bob" /\
  exists pab pba d,
    path_to_actor one_movie "Alice" "Bob" = Ok (pab, d) /\
    path_to_actor one_movie "Bob" "Alice" = Ok (pba, d).
Proof.
  assert (Hnc : no_collision one_movie)
    by by_computation.
  assert (Ha : In "Alice" (actor_names one_movie))
    by by_computation.
  assert (Hb : In "Bob" (actor_names one_movie))
    by by_computation.
  assert (Hc : connected (G one_movie) "Alice" "Bob").
  { apply connected_by_search;
      [apply (bt_undirected _ (built_init _)) | vm_compute; reflexivity]. }
  repeat (split; [assumption|]).
  exact (C8_degree_is_symmetric ["Movie A/Alice/Bob"] "Alice" "Bob"
           Hnc Ha Hb Hc).
Defined.

(** Two actors that are no movie titles, with two shortest paths between
    them, one of them through a node that is a title and a cast member: the
    degree from [a] to [b] is 2, the degree from [b] to [a] is 1. *)
Lemma C8_counterexample :
  In "a" (actor_names two_routes) /\ In "b" (actor_names two_routes) /\
  ~ In "a" (movie_titles two_routes) /\ ~ In "b" (movie_titles two_routes) /\
  connected (G two_routes) "a" "b" /\
  path_to_actor two_routes "a" "b" = Ok (["a"; "M1"; "X"; "M2"; "b"], 2%Z) /\
  path_to_actor two_routes "b" "a" = Ok (["b"; "M4"; "T"; "M3"; "a"], 1%Z).
Proof.
  split; [by_computation|].
  split; [by_computation|].
  split; [by_computation|].
  split; [by_computation|].
  split.
  { apply connected_by_search;
      [apply (bt_undirected _ (built_init _)) | vm_compute; reflexivity]. }
  split; vm_compute; reflexivity.
Qed.

(** * The distance-distribution query *)

Lemma length_hist values : length (hist values) = 7.
Proof. unfold hist, bins. now rewrite length_map, length_seq. Qed.

Lemma list_sum_indicator v n :
  list_sum (map (fun i => if Nat.eq_dec v i then 1 else 0) (seq 0 n)) =
  if v <? n then 1 else 0.
Proof.
  induction n as [|n IH].
  - reflexivity.
  - rewrite seq_S, map_app, list_sum_app, IH. simpl.
    destruct (Nat.eq_dec v n) as [->|Hne].
    + rewrite Nat.ltb_irrefl.
      destruct (Nat.ltb_spec n (S n)); lia.
    + destruct (Nat.ltb_spec v n), (Nat.ltb_spec v (S n)); lia.
Qed.

Lemma list_sum_count_cons v vs (l : list nat) :
  list_sum (map (count_occ Nat.eq_dec (v :: vs)) l) =
  list_sum (map (fun i => if Nat.eq_dec v i then 1 else 0) l) +
  list_sum (map (count_occ Nat.eq_dec vs) l).
Proof.
  induction l as [|i l IH]; [reflexivity|].
  rewrite !map_cons.
  change (list_sum (?a :: ?r)) with (a + list_sum r). rewrite IH.
  cbn [count_occ]. destruct (Nat.eq_dec v i); lia.
Qed.

(** The bars add up to the number of values that fall in a bin. *)
Lemma list_sum_hist values :
  list_sum (hist values) = length (filter (fun v => v <? 7) values).
Proof.
  unfold hist, bins. induction values as [|v vs IH].
  - reflexivity.
  - rewrite list_sum_count_cons, list_sum_indicator, IH.
    cbn [filter]. destruct (v <? 7); reflexivity.
Qed.

Lemma length_counted all_paths :
  length (filter (fun v => v <? 7) (degrees all_paths)) =
  length (counted all_paths).
Proof.
  unfold degrees, counted. induction all_paths as [|[x d] l IH];
    [reflexivity|].
  cbn [filter snd]. destruct (d mod 2 =? 0); cbn [andb map filter snd];
    [|exact IH].
  destruct (d / 2 <? 7); cbn [map length]; now rewrite IH.
Qed.

Lemma NoDup_counted all_paths :
  NoDup (map fst all_paths) -> NoDup (counted all_paths).
Proof.
  unfold counted. induction all_paths as [|[x d] l IH]; intros Hnd;
    [constructor|].
  inversion Hnd as [|y ys Hnot Hnd']; subst.
  cbn [filter]. destruct ((snd (x, d) mod 2 =? 0) && (snd (x, d) / 2 <? 7));
    [|now apply IH].
  cbn [map fst]. constructor; [|now apply IH].
  intros Hin. apply Hnot. apply in_map_iff in Hin.
  destruct Hin as [kv [Hkv Hin]]. apply filter_In in Hin.
  apply in_map_iff. exists kv. tauto.
Qed.

Lemma even_mod2 d : (d mod 2 =? 0) = Nat.even d.
Proof.
  rewrite <- Nat.bit0_mod, Nat.bit0_odd, <- Nat.negb_even.
  now destruct (Nat.even d).
Qed.

Lemma In_counted all_paths x :
  In x (counted all_paths) <->
  exists d, In (x, d) all_paths /\ Nat.even d = true /\ d / 2 <= 6.
Proof.
  unfold counted. rewrite in_map_iff. split.
  - intros [[y d] [Hy Hin]]. simpl in Hy. subst y.
    apply filter_In in Hin. destruct Hin as [Hin Hb]. cbn [snd] in Hb.
    apply andb_true_iff in Hb. destruct Hb as [H1 H2].
    rewrite even_mod2 in H1. apply Nat.ltb_lt in H2.
    exists d. repeat split; [assumption | assumption | lia].
  - intros [d [Hin [H1 H2]]]. exists (x, d). split; [reflexivity|].
    apply filter_In. split; [assumption|]. cbn [snd].
    apply andb_true_iff. rewrite even_mod2. split; [assumption|].
    apply Nat.ltb_lt. lia.
Qed.

(** The histogram and the mean do not depend on the order of the entries
    of [all_paths]. *)
Lemma Permutation_degrees out out' :
  Permutation out out' -> Permutation (degrees out) (degrees out').
Proof.
  intros H. unfold degrees. apply Permutation_map.
  induction H as [|kv l l' H IH|kv kv' l|l l' l'' H IH H' IH']; cbn [filter].
  - constructor.
  - destruct (snd kv mod 2 =? 0); [now constructor | assumption].
  - destruct (snd kv mod 2 =? 0), (snd kv' mod 2 =? 0);
      try apply Permutation_refl. apply perm_swap.
  - eapply Permutation_trans; eassumption.
Qed.

Lemma distribution_order out out' :
  Permutation out out' ->
  hist (degrees out) = hist (degrees out') /\
  mean (degrees out) = mean (degrees out').
Proof.
  intros H. apply Permutation_degrees in H. split.
  - unfold hist. apply map_ext. intros i.
    now apply (Permutation_count_occ Nat.eq_dec).
  - unfold mean. rewrite (Permutation_length H).
    destruct (length (degrees out')); [reflexivity|].
    now rewrite (Permutation_list_sum H).
Qed.

(** C4, as the code has it: for every target node of the graph the
    histogram has the seven bars of the degrees 0 to 6, and the sum of the
    bars is the number of nodes at an even raw distance from the target
    whose degree, half that distance, is at most 6; a node of a higher
    degree is in no bar.  When the target is an actor and no string is both
    a movie title and an actor name, these nodes are the actor nodes that
    can be reached from the target with a degree of at most 6. *)
Theorem C4_bars_count_degrees_up_to_six :
  forall lines target,
    let self := MovieGraph_init lines in
    is_node (G self) target ->
    exists fig avg,
      average_number self target = Ok (fig, avg) /\
      length (bars fig) = 7 /\
      exists l,
        NoDup l /\ list_sum (bars fig) = length l /\
        (forall x, In x l <->
           exists d, dist_eq (G self) target x d /\
                     Nat.even d = true /\ d / 2 <= 6) /\
        (no_collision self -> In target (actor_names self) ->
         forall x, In x l <->
           In x (actor_names self) /\
           exists d, dist_eq (G self) target x d /\ d / 2 <= 6).
Proof.
  intros lines target self Ht.
  pose proof (built_init lines) as Hbt. fold self in Hbt.
  clearbody self.
  destruct (average_number_spec self (bt_undirected _ Hbt) target Ht)
    as (out & fig & avg & Ho & Hnd & Hd & H0 & Hm & Hbars & Havg).
  assert (Hl : forall x, In x (counted out) <->
             exists d, dist_eq (G self) target x d /\
                       Nat.even d = true /\ d / 2 <= 6).
  { intros x. rewrite In_counted. split; intros [d [H1 H2]]; exists d;
      (split; [now apply Hd | assumption]). }
  exists fig, avg. split; [assumption|]. rewrite Hbars.
  split; [apply length_hist|]. exists (counted out).
  split; [now apply NoDup_counted|].
  split; [rewrite list_sum_hist; apply length_counted|].
  split; [exact Hl|].
  intros Hnc Ha x. rewrite Hl. split.
  - intros [d [Hdx [He Hle]]]. split; [|exists d; now split].
    destruct Hdx as [Hw _].
    apply (reached_actor self Hbt target x d Ha Hw).
    pose proof (walk_parity self Hbt Hnc target x d Hw) as Hp.
    rewrite He, (actor_not_movie self Hnc target Ha) in Hp.
    now destruct (not_movie self x).
  - intros [Hx [d [Hdx Hle]]]. exists d. split; [assumption|].
    split; [|assumption]. destruct Hdx as [Hw _].
    rewrite (walk_parity self Hbt Hnc target x d Hw).
    now rewrite (actor_not_movie self Hnc target Ha),
      (actor_not_movie self Hnc x Hx).
Qed.

Lemma C4_witness :
  is_node (G one_movie) "Alice" /\
  no_collision one_movie /\ In "Alice" (actor_names one_movie) /\
  exists fig avg,
    average_number one_movie "Alice" = Ok (fig, avg) /\
    length (bars fig) = 7 /\
    exists l,
      NoDup l /\ list_sum (bars fig) = length l /\
      (forall x, In x l <->
         exists d, dist_eq (G one_movie) "Alice" x d /\
                   Nat.even d = true /\ d / 2 <= 6) /\
      (no_collision one_movie -> In "Alice" (actor_names one_movie) ->
       forall x, In x l <->
         In x (actor_names one_movie) /\
         exists d, dist_eq (G one_movie) "Alice" x d /\ d / 2 <= 6).
Proof.
  assert (Ht : is_node (G one_movie) "Alice")
    by by_computation.
  split; [exact Ht|].
  split; [by_computation|].
  split; [by_computation|].
  exact (C4_bars_count_degrees_up_to_six ["Movie A/Alice/Bob"] "Alice" Ht).
Defined.

(** Eight actors in a row: all eight are actor nodes that can be reached
    from the first, and the bars add up to seven. *)
Lemma C4_counterexample :
  is_node (G chain_of_eight) "A0" /\
  exists fig avg,
    average_number chain_of_eight "A0" = Ok (fig, avg) /\
    list_sum (bars fig) = 7 /\
    exists l,
      NoDup l /\ length l = 8 /\
      forall x, In x l <->
        In x (actor_names chain_of_eight) /\
        connected (G chain_of_eight) "A0" x.
Proof.
  split; [by_computation|].
  exists (mkFigure [1; 1; 1; 1; 1; 1; 1]
            "Average score of every actor to A0"
            "Number of Actors" "# of Movies Away from Actor").
  exists (Qmake 28 8).
  split; [by_computation|].
  split; [reflexivity|].
  exists ["A0"; "A1"; "A2"; "A3"; "A4"; "A5"; "A6"; "A7"].
  split.
  { repeat (constructor;
            [by_computation|]).
    constructor. }
  split; [reflexivity|].
  assert (Hact : actor_names chain_of_eight =
                 ["A0"; "A1"; "A2"; "A3"; "A4"; "A5"; "A6"; "A7"])
    by (vm_compute; reflexivity).
  rewrite Hact. intros x. split.
  - intros Hx. split; [exact Hx|].
    apply connected_by_search; [apply (bt_undirected _ (built_init _))|].
    repeat (destruct Hx as [<-|Hx]; [vm_compute; reflexivity|]).
    destruct Hx.
  - intros [Hx _]. exact Hx.
Qed.

Lemma list_sum_zero (l : list nat) :
  (forall v, In v l -> v = 0) -> list_sum l = 0.
Proof.
  induction l as [|v l IH]; intros H; [reflexivity|].
  simpl. rewrite (H v (or_introl eq_refl)), IH; [reflexivity|].
  intros u Hu. apply H. now right.
Qed.

(** C9: for every target node of the graph, the target itself is in the
    distribution at degree 0, so the list of degrees is not empty, the bar
    of degree 0 is at least 1, and the mean is computed with no division by
    zero; when no node other than the target is at an even distance from
    it, the mean is 0. *)
Theorem C9_target_counts_at_degree_zero :
  forall lines target,
    let self := MovieGraph_init lines in
    is_node (G self) target ->
    exists all_paths fig avg,
      shortest_path_length (G self) target = Ok all_paths /\
      In (target, 0) all_paths /\
      In 0 (degrees all_paths) /\
      1 <= length (degrees all_paths) /\
      mean (degrees all_paths) = Ok avg /\
      average_number self target = Ok (fig, avg) /\
      1 <= nth 0 (bars fig) 0 /\
      ((forall x d, dist_eq (G self) target x d -> Nat.even d = true ->
                    x = target) ->
       Qeq avg 0).
Proof.
  intros lines target self Ht.
  pose proof (built_init lines) as Hbt. fold self in Hbt.
  clearbody self.
  destruct (average_number_spec self (bt_undirected _ Hbt) target Ht)
    as (out & fig & avg & Ho & Hnd & Hd & H0 & Hm & Hbars & Havg).
  assert (Hne : degrees out <> [])
    by (intros E; rewrite E in H0; destruct H0).
  exists out, fig, avg. split; [assumption|].
  split; [apply Hd; now apply dist_eq_root|].
  split; [assumption|].
  split; [destruct (degrees out); [congruence | simpl; lia]|].
  split; [assumption|]. split; [assumption|]. split.
  - rewrite Hbars. unfold hist, bins. cbn [seq map nth].
    now apply (count_occ_In Nat.eq_dec).
  - intros Hiso. rewrite (mean_defined _ Hne) in Hm. injection Hm as <-.
    rewrite list_sum_zero; [reflexivity|].
    intros v Hv. unfold degrees in Hv. apply in_map_iff in Hv.
    destruct Hv as [[x d] [<- Hin]]. apply filter_In in Hin.
    destruct Hin as [Hin He]. cbn [snd] in *. rewrite even_mod2 in He.
    apply Hd in Hin. pose proof (Hiso x d Hin He) as ->.
    rewrite (dist_eq_unique _ _ _ _ _ Hin (dist_eq_root _ _ Ht)).
    reflexivity.
Qed.

Lemma C9_witness :
  is_node (G solo_movie) "Alice" /\
  (forall x d, dist_eq (G solo_movie) "Alice" x d -> Nat.even d = true ->
               x = "Alice") /\
  exists all_paths fig avg,
    shortest_path_length (G solo_movie) "Alice" = Ok all_paths /\
    In ("Alice", 0) all_paths /\
    In 0 (degrees all_paths) /\
    1 <= length (degrees all_paths) /\
    mean (degrees all_paths) = Ok avg /\
    average_number solo_movie "Alice" = Ok (fig, avg) /\
    1 <= nth 0 (bars fig) 0 /\
    ((forall x d, dist_eq (G solo_movie) "Alice" x d -> Nat.even d = true ->
                  x = "Alice") ->
     Qeq avg 0).
Proof.
  assert (Ht : is_node (G solo_movie) "Alice")
    by by_computation.
  split; [exact Ht|]. split.
  { intros x d Hd He.
    apply (dist_by_search (G solo_movie) "Alice"
             [("Alice", 0); ("Movie A", 1)]
             (bt_undirected _ (built_init _)) eq_refl) in Hd.
    destruct Hd as [[= <- <-]|[[= <- <-]|[]]]; [reflexivity | discriminate]. }
  exact (C9_target_counts_at_degree_zero ["Movie A/Alice"] "Alice" Ht).
Defined.

(** C10: neither query asks of which kind a node is.  For every node [x] of
    the graph, a movie title or not, the shortest-actor-path query with [x]
    as the source or as the target and any node [y] as the other end
    returns a shortest path with the number of its nodes that are not movie
    titles, minus one, or raises [NetworkXNoPath] when no walk joins the
    two; the distance-distribution query on [x] returns the histogram and
    the mean of half the even distances from [x]. *)
Theorem C10_queries_accept_any_node :
  forall lines x,
    let self := MovieGraph_init lines in
    is_node (G self) x ->
    (forall y, is_node (G self) y ->
       (exists p,
          path_to_actor self x y =
            Ok (p, (Z.of_nat (length (filter (not_movie self) p)) - 1)%Z) /\
          is_path (G self) x y p /\
          forall n, walk_len (G self) x y n -> length p <= S n) \/
       (path_to_actor self x y = Raise NetworkXNoPath /\
        ~ connected (G self) x y)) /\
    (forall y, is_node (G self) y ->
       (exists p,
          path_to_actor self y x =
            Ok (p, (Z.of_nat (length (filter (not_movie self) p)) - 1)%Z) /\
          is_path (G self) y x p /\
          forall n, walk_len (G self) y x n -> length p <= S n) \/
       (path_to_actor self y x = Raise NetworkXNoPath /\
        ~ connected (G self) y x)) /\
    exists all_paths fig avg,
      shortest_path_length (G self) x = Ok all_paths /\
      NoDup (map fst all_paths) /\
      (forall y d, In (y, d) all_paths <-> dist_eq (G self) x y d) /\
      average_number self x = Ok (fig, avg) /\
      bars fig = hist (degrees all_paths) /\
      mean (degrees all_paths) = Ok avg.
Proof.
  intros lines x self Hx.
  pose proof (built_init lines) as Hbt. fold self in Hbt.
  clearbody self. pose proof (bt_undirected _ Hbt) as Hu.
  split; [intros y Hy; now apply path_to_actor_spec|].
  split; [intros y Hy; now apply path_to_actor_spec|].
  destruct (average_number_spec self Hu x Hx)
    as (out & fig & avg & Ho & Hnd & Hd & H0 & Hm & Hbars & Havg).
  exists out, fig, avg. repeat (split; [assumption|]). assumption.
Qed.

Lemma C10_witness :
  is_node (G one_movie) "Movie A" /\
  In "Movie A" (movie_titles one_movie) /\
  (forall y, is_node (G one_movie) y ->
     (exists p,
        path_to_actor one_movie "Movie A" y =
          Ok (p, (Z.of_nat (length (filter (not_movie one_movie) p)) - 1)%Z) /\
        is_path (G one_movie) "Movie A" y p /\
        forall n, walk_len (G one_movie) "Movie A" y n -> length p <= S n) \/
     (path_to_actor one_movie "Movie A" y = Raise NetworkXNoPath /\
      ~ connected (G one_movie) "Movie A" y)) /\
  (forall y, is_node (G one_movie) y ->
     (exists p,
        path_to_actor one_movie y "Movie A" =
          Ok (p, (Z.of_nat (length (filter (not_movie one_movie) p)) - 1)%Z) /\
        is_path (G one_movie) y "Movie A" p /\
        forall n, walk_len (G one_movie) y "Movie A" n -> length p <= S n) \/
     (path_to_actor one_movie y "Movie A" = Raise NetworkXNoPath /\
      ~ connected (G one_movie) y "Movie A")) /\
  exists all_paths fig avg,
    shortest_path_length (G one_movie) "Movie A" = Ok all_paths /\
    NoDup (map fst all_paths) /\
    (forall y d, In (y, d) all_paths <-> dist_eq (G one_movie) "Movie A" y d) /\
    average_number one_movie "Movie A" = Ok (fig, avg) /\
    bars fig = hist (degrees all_paths) /\
    mean (degrees all_paths) = Ok avg.
Proof.
  assert (Hx : is_node (G one_movie) "Movie A")
    by by_computation.
  split; [exact Hx|].
  split; [by_computation|].
  exact (C10_queries_accept_any_node ["Movie A/Alice/Bob"] "Movie A" Hx).
Defined.

(** The queries on the movie node of the scenario of C1. *)
Example movie_node_queries :
  path_to_actor one_movie "Movie A" "Bob" = Ok (["Movie A"; "Bob"], 0%Z) /\
  path_to_actor one_movie "Movie A" "Movie A" = Ok (["Movie A"], (-1)%Z) /\
  exists fig,
    average_number one_movie "Movie A" = Ok (fig, Qmake 0 1) /\
    bars fig = [1; 0; 0; 0; 0; 0; 0].
Proof.
  split; [by_computation|]. split; [by_computation|].
  exists (mkFigure [1; 0; 0; 0; 0; 0; 0]
            "Average score of every actor to Movie A"
            "Number of Actors" "# of Movies Away from Actor").
  split; [vm_compute; reflexivity | reflexivity].
Qed.

(** * More on [MovieGraph.__init__] *)

Lemma fold_left_grows {A B : Type} (f : A -> B -> A) (P : A -> Prop)
  (Q : B -> Prop) :
  (forall a x, P (f a x) <-> P a \/ Q x) ->
  forall l a, P (fold_left f l a) <-> P a \/ exists x, In x l /\ Q x.
Proof.
  intros Hf. induction l as [|x l IH]; intros a; simpl.
  - split; [auto|]. intros [H|[x [[] _]]]. exact H.
  - rewrite IH, Hf. split.
    + intros [[H|H]|[y [Hy HQ]]]; eauto.
    + intros [H|[y [[<-|Hy] HQ]]]; eauto.
Qed.

Section OneLine.

Variable title : string.

Lemma cast_titles movie_list :
  forall self,
  movie_titles (fold_left (add_cast_member title) movie_list self) =
  movie_titles self.
Proof.
  induction movie_list as [|i l IH]; intros self; simpl; [reflexivity|].
  now rewrite IH.
Qed.

Lemma cast_actors movie_list self a :
  In a (actor_names (fold_left (add_cast_member title) movie_list self)) <->
  In a (actor_names self) \/ In a movie_list.
Proof.
  rewrite (fold_left_grows (add_cast_member title)
             (fun self => In a (actor_names self)) (fun i => a = i)).
  - split; intros [H|H]; auto.
    + destruct H as [x [Hx ->]]. auto.
    + right. exists a. auto.
  - intros self' i. simpl. apply In_set_add.
Qed.

Lemma cast_adjacent movie_list self u v :
  adjacent (G (fold_left (add_cast_member title) movie_list self)) u v <->
  adjacent (G self) u v \/
  exists i, In i movie_list /\
            ((u = title /\ v = i) \/ (u = i /\ v = title)).
Proof.
  apply (fold_left_grows (add_cast_member title)
           (fun self => adjacent (G self) u v)
           (fun i => (u = title /\ v = i) \/ (u = i /\ v = title))).
  intros self' i. simpl. apply adjacent_add_edge.
Qed.

Lemma cast_nodes movie_list self x :
  is_node (G (fold_left (add_cast_member title) movie_list self)) x <->
  is_node (G self) x \/
  exists i, In i movie_list /\ (x = title \/ x = i).
Proof.
  apply (fold_left_grows (add_cast_member title)
           (fun self => is_node (G self) x)
           (fun i => x = title \/ x = i)).
  intros self' i. simpl. apply is_node_add_edge.
Qed.

End OneLine.

Lemma add_line_titles self line t :
  In t (movie_titles (add_line self line)) <->
  In t (movie_titles self) \/ t = fst (record_of line).
Proof.
  unfold add_line, record_of.
  destruct (split_fields "/" (strip line)) as [title movie_list].
  rewrite cast_titles. simpl. apply In_set_add.
Qed.

Lemma add_line_actors self line a :
  In a (actor_names (add_line self line)) <->
  In a (actor_names self) \/ In a (snd (record_of line)).
Proof.
  unfold add_line, record_of.
  destruct (split_fields "/" (strip line)) as [title movie_list].
  rewrite cast_actors. reflexivity.
Qed.

Lemma add_line_adjacent self line u v :
  adjacent (G (add_line self line)) u v <->
  adjacent (G self) u v \/ credit line u v.
Proof.
  unfold add_line, credit, record_of.
  destruct (split_fields "/" (strip line)) as [title movie_list].
  rewrite cast_adjacent. reflexivity.
Qed.

Lemma add_line_nodes self line x :
  is_node (G (add_line self line)) x <->
  is_node (G self) x \/
  exists i, In i (snd (record_of line)) /\
            (x = fst (record_of line) \/ x = i).
Proof.
  unfold add_line, record_of.
  destruct (split_fields "/" (strip line)) as [title movie_list].
  rewrite cast_nodes. reflexivity.
Qed.

Lemma init_titles lines t :
  In t (movie_titles (MovieGraph_init lines)) <->
  exists line, In line lines /\ t = fst (record_of line).
Proof.
  unfold MovieGraph_init.
  rewrite (fold_left_grows add_line (fun self => In t (movie_titles self))
             (fun line => t = fst (record_of line)));
    [|intros; apply add_line_titles].
  simpl. tauto.
Qed.

Lemma init_actors lines a :
  In a (actor_names (MovieGraph_init lines)) <->
  exists line, In line lines /\ In a (snd (record_of line)).
Proof.
  unfold MovieGraph_init.
  rewrite (fold_left_grows add_line (fun self => In a (actor_names self))
             (fun line => In a (snd (record_of line))));
    [|intros; apply add_line_actors].
  simpl. tauto.
Qed.

Lemma init_adjacent lines u v :
  adjacent (G (MovieGraph_init lines)) u v <->
  exists line, In line lines /\ credit line u v.
Proof.
  unfold MovieGraph_init.
  rewrite (fold_left_grows add_line (fun self => adjacent (G self) u v)
             (fun line => credit line u v));
    [|intros; apply add_line_adjacent].
  unfold adjacent at 1. simpl. tauto.
Qed.

Lemma init_nodes lines x :
  is_node (G (MovieGraph_init lines)) x <->
  exists line, In line lines /\
    exists i, In i (snd (record_of line)) /\
              (x = fst (record_of line) \/ x = i).
Proof.
  unfold MovieGraph_init.
  rewrite (fold_left_grows add_line (fun self => is_node (G self) x)
             (fun line => exists i, In i (snd (record_of line)) /\
                            (x = fst (record_of line) \/ x = i)));
    [|intros; apply add_line_nodes].
  unfold is_node at 1. simpl. tauto.
Qed.

(** ** The dicts of the graph have every key once *)

Lemma NoDup_set_add x s : NoDup s -> NoDup (set_add x s).
Proof.
  intros H. unfold set_add. destruct (mem x s) eqn:E; [assumption|].
  apply mem_not_In in E. apply NoDup_app; [assumption | | ].
  - repeat constructor. intros [].
  - intros y Hy [<-|[]]. contradiction.
Qed.

Lemma NoDup_keys_add_node g u :
  NoDup (map fst g) -> NoDup (map fst (add_node g u)).
Proof.
  intros H. unfold add_node. destruct (has_node g u) eqn:E; [assumption|].
  apply mem_not_In in E. rewrite map_app. simpl.
  apply NoDup_app; [assumption | | ].
  - repeat constructor. intros [].
  - intros y Hy [<-|[]]. contradiction.
Qed.

Lemma adj_add_neighbour_eq g u v x :
  is_node g u ->
  adj (add_neighbour g u v) x =
  if String.eqb u x then set_add v (adj g u) else adj g x.
Proof.
  unfold is_node. induction g as [|[y ns] g IH]; simpl; [intros []|].
  intros Hu. destruct (String.eqb_spec y u) as [->|Hyu]; simpl.
  - try rewrite String.eqb_refl. now destruct (String.eqb u x).
  - destruct (String.eqb_spec y x) as [->|Hyx].
    + destruct (String.eqb_spec u x) as [->|]; [congruence | reflexivity].
    + apply IH. destruct Hu as [Hu|Hu]; [congruence | assumption].
Qed.

Lemma simple_add_edge g a b : simple g -> simple (add_edge g a b).
Proof.
  intros [Hk Ha]. unfold add_edge. split.
  - rewrite !keys_add_neighbour. now do 2 apply NoDup_keys_add_node.
  - intros u.
    assert (Hn : forall x, NoDup (adj (add_node (add_node g a) b) x))
      by (intros x; rewrite !adj_add_node; apply Ha).
    assert (Hna : is_node (add_node (add_node g a) b) a).
    { apply is_node_add_node. left. apply is_node_add_node. now right. }
    assert (Hnb : is_node (add_node (add_node g a) b) b)
      by (apply is_node_add_node; now right).
    assert (Hm : forall x,
               NoDup (adj (add_neighbour (add_node (add_node g a) b) a b) x)).
    { intros x. rewrite adj_add_neighbour_eq by assumption.
      destruct (String.eqb a x); [apply NoDup_set_add|]; apply Hn. }
    rewrite adj_add_neighbour_eq
      by (unfold is_node; now rewrite keys_add_neighbour).
    destruct (String.eqb b u); [apply NoDup_set_add|]; apply Hm.
Qed.

Lemma simple_init lines : simple (G (MovieGraph_init lines)).
Proof.
  unfold MovieGraph_init.
  assert (H0 : simple (G empty_MovieGraph))
    by (split; [constructor | intros u; constructor]).
  revert H0. generalize empty_MovieGraph as self.
  induction lines as [|line lines IH]; intros self Hs; simpl; [assumption|].
  apply IH. unfold add_line.
  destruct (split_fields "/" (strip line)) as [title movie_list].
  assert (Hs' : simple (G (mkMovieGraph (set_add title (movie_titles self))
                             (actor_names self) (G self)))) by exact Hs.
  revert Hs'. generalize (mkMovieGraph (set_add title (movie_titles self))
                            (actor_names self) (G self)) as self'.
  induction movie_list as [|i l IHl]; intros self' Hs'; simpl; [assumption|].
  apply IHl. simpl. now apply simple_add_edge.
Qed.

(** ** A line that adds nothing *)

Lemma set_add_present x s : In x s -> set_add x s = s.
Proof. intros H. unfold set_add. now rewrite (proj2 (mem_In x s) H). Qed.

Lemma add_node_present g u : is_node g u -> add_node g u = g.
Proof.
  intros H. unfold add_node. now rewrite (proj2 (has_node_is_node g u) H).
Qed.

Lemma add_neighbour_present g u v :
  adjacent g u v -> add_neighbour g u v = g.
Proof.
  unfold adjacent. induction g as [|[y ns] g IH]; simpl; [intros []|].
  destruct (String.eqb_spec y u) as [->|Hyu]; intros H.
  - now rewrite set_add_present.
  - now rewrite IH.
Qed.

Lemma add_edge_present g a b :
  adjacent g a b -> adjacent g b a -> add_edge g a b = g.
Proof.
  intros Hab Hba. unfold add_edge.
  rewrite (add_node_present g a) by (eapply adjacent_is_node; eassumption).
  rewrite (add_node_present g b) by (eapply adjacent_is_node; eassumption).
  rewrite (add_neighbour_present g a b Hab).
  now apply add_neighbour_present.
Qed.

Lemma add_line_present self line :
  In (fst (record_of line)) (movie_titles self) ->
  (forall i, In i (snd (record_of line)) ->
     In i (actor_names self) /\
     adjacent (G self) (fst (record_of line)) i /\
     adjacent (G self) i (fst (record_of line))) ->
  add_line self line = self.
Proof.
  unfold add_line, record_of.
  destruct (split_fields "/" (strip line)) as [title movie_list]. simpl.
  intros Ht Hc. rewrite (set_add_present _ _ Ht).
  assert (E : mkMovieGraph (movie_titles self) (actor_names self) (G self)
              = self) by now destruct self.
  rewrite E. clear E Ht.
  induction movie_list as [|i l IH]; simpl; [reflexivity|].
  destruct (Hc i (or_introl eq_refl)) as [Ha [H1 H2]].
  assert (E : add_cast_member title self i = self).
  { unfold add_cast_member.
    rewrite (set_add_present _ _ Ha), (add_edge_present _ _ _ H1 H2).
    now destruct self. }
  rewrite E. apply IH. intros j Hj. apply Hc. now right.
Qed.

(** ** [strip] and [split] *)

Lemma append_nil s : (s ++ EmptyString)%string = s.
Proof. induction s as [|c s IH]; simpl; congruence. Qed.

Lemma append_assoc (a b c : string) :
  ((a ++ b) ++ c)%string = (a ++ (b ++ c))%string.
Proof. induction a as [|x a IH]; simpl; congruence. Qed.

Lemma length_append (a b : string) :
  String.length (a ++ b) = String.length a + String.length b.
Proof. induction a as [|x a IH]; simpl; congruence. Qed.

Lemma reverse_append (a b : string) :
  reverse (a ++ b) = (reverse b ++ reverse a)%string.
Proof.
  induction a as [|x a IH]; simpl.
  - now rewrite append_nil.
  - now rewrite IH, append_assoc.
Qed.

Lemma reverse_reverse s : reverse (reverse s) = s.
Proof.
  induction s as [|c s IH]; simpl; [reflexivity|].
  rewrite reverse_append, IH. reflexivity.
Qed.

Lemma length_reverse s : String.length (reverse s) = String.length s.
Proof.
  induction s as [|c s IH]; simpl; [reflexivity|].
  rewrite length_append, IH. simpl. lia.
Qed.

Lemma after_spec w s r : after w s = Some r <-> s = (w ++ r)%string.
Proof.
  revert s. induction w as [|a w IH]; intros s; simpl.
  - split; [now intros [= ->] | now intros ->].
  - destruct s as [|b s]; [split; discriminate|].
    destruct (Ascii.eqb_spec a b) as [->|Hne].
    + rewrite IH. split; [now intros -> | now intros [= ->]].
    + split; [discriminate | intros [= E _]; congruence].
Qed.

Lemma after_any_Some chars s r :
  after_any chars s = Some r -> exists w, In w chars /\ s = (w ++ r)%string.
Proof.
  induction chars as [|w chars IH]; simpl; [discriminate|].
  destruct (after w s) as [r'|] eqn:E.
  - intros [= ->]. apply after_spec in E. exists w. auto.
  - intros H. destruct (IH H) as [w' [Hw' Hs]]. exists w'. auto.
Qed.

Lemma after_any_None chars s :
  after_any chars s = None ->
  forall w r, In w chars -> s <> (w ++ r)%string.
Proof.
  induction chars as [|w chars IH]; simpl; [intros _ w r []|].
  destruct (after w s) as [r'|] eqn:E; [discriminate|].
  intros H w' r [<-|Hw'] Hs.
  - apply after_spec in Hs. congruence.
  - exact (IH H w' r Hw' Hs).
Qed.

Lemma strip_left_spec chars n s :
  exists l, s = (l ++ strip_left chars n s)%string /\ made_of chars l.
Proof.
  revert s. induction n as [|n IH]; intros s; simpl.
  - exists EmptyString. split; [reflexivity | constructor].
  - destruct (after_any chars s) as [r|] eqn:E.
    + destruct (after_any_Some _ _ _ E) as [w [Hw Hs]].
      destruct (IH r) as [l [Hr Hl]].
      exists (w ++ l)%string. split; [|now constructor].
      rewrite append_assoc, <- Hr. exact Hs.
    + exists EmptyString. split; [reflexivity | constructor].
Qed.

Lemma strip_left_done chars n s :
  (forall w, In w chars -> w <> EmptyString) -> String.length s <= n ->
  after_any chars (strip_left chars n s) = None.
Proof.
  intros Hne. revert s. induction n as [|n IH]; intros s Hn; simpl.
  - destruct s; [|simpl in Hn; lia].
    destruct (after_any chars EmptyString) as [r|] eqn:E; [|reflexivity].
    destruct (after_any_Some _ _ _ E) as [w [Hw Hs]].
    destruct w; [now elim (Hne _ Hw) | discriminate].
  - destruct (after_any chars s) as [r|] eqn:E; [|exact E].
    destruct (after_any_Some _ _ _ E) as [w [Hw Hs]].
    apply IH. subst s. rewrite length_append in Hn.
    destruct w; [now elim (Hne _ Hw) | simpl in Hn; lia].
Qed.

Lemma made_of_snoc chars l w :
  made_of chars l -> In w chars -> made_of chars (l ++ w)%string.
Proof.
  induction 1 as [|v s Hv Hs IH]; intros Hw; simpl.
  - rewrite <- (append_nil w). now constructor; [|constructor].
  - rewrite append_assoc. constructor; auto.
Qed.

Lemma made_of_reverse chars l :
  made_of (map reverse chars) l -> made_of chars (reverse l).
Proof.
  induction 1 as [|v s Hv Hs IH]; simpl; [constructor|].
  rewrite reverse_append. apply in_map_iff in Hv.
  destruct Hv as [w [<- Hw]]. rewrite reverse_reverse.
  now apply made_of_snoc.
Qed.

Lemma strip_right_spec chars s :
  exists r, s = (strip_right chars s ++ r)%string /\ made_of chars r.
Proof.
  unfold strip_right.
  destruct (strip_left_spec (map reverse chars) (String.length s) (reverse s))
    as [l [Hs Hl]].
  exists (reverse l). split; [|now apply made_of_reverse].
  rewrite <- reverse_append, <- Hs. now rewrite reverse_reverse.
Qed.

Lemma strip_right_done chars s :
  (forall w, In w chars -> w <> EmptyString) ->
  forall w t, In w chars -> strip_right chars s <> (t ++ w)%string.
Proof.
  intros Hne w t Hw E. unfold strip_right in E.
  apply (f_equal reverse) in E.
  rewrite reverse_reverse, reverse_append in E.
  assert (Hd : after_any (map reverse chars)
                 (strip_left (map reverse chars) (String.length s)
                    (reverse s)) = None).
  { apply strip_left_done; [|now rewrite length_reverse].
    intros v Hv. apply in_map_iff in Hv. destruct Hv as [u [<- Hu]].
    intros E'. apply (f_equal reverse) in E'. rewrite reverse_reverse in E'.
    exact (Hne _ Hu E'). }
  exact (after_any_None _ _ Hd _ _ (in_map reverse _ _ Hw) E).
Qed.

Lemma whitespace_not_empty w : In w whitespace -> w <> EmptyString.
Proof.
  intros Hw E. subst w. revert Hw. apply not_In_check.
  vm_compute. reflexivity.
Qed.

Lemma split_fields_join sep s :
  join sep (fst (split_fields sep s)) (snd (split_fields sep s)) = s.
Proof.
  induction s as [|c s IH]; simpl; [reflexivity|].
  destruct (split_fields sep s) as [h t]. simpl in IH.
  destruct (Ascii.eqb_spec c sep) as [->|Hne]; simpl.
  - now rewrite IH.
  - destruct t as [|f t]; simpl in *; now rewrite IH.
Qed.

Lemma split_fields_no_sep sep s :
  ~ In sep (chars (fst (split_fields sep s))) /\
  forall f, In f (snd (split_fields sep s)) -> ~ In sep (chars f).
Proof.
  induction s as [|c s [IH1 IH2]]; simpl.
  - split; [intros [] | intros f []].
  - destruct (split_fields sep s) as [h t]. simpl in *.
    destruct (Ascii.eqb_spec c sep) as [->|Hne]; simpl.
    + split; [intros []|]. intros f [<-|Hf]; auto.
    + split; [|assumption]. intros [E|H]; [congruence | contradiction].
Qed.

(** ** What [__init__] builds, line by line *)

(** X1: the movie titles are the first fields of the lines and the actor
    names are the other fields, nothing else. *)
Theorem X1_titles_and_actors_of_the_lines :
  forall lines x,
    let self := MovieGraph_init lines in
    (In x (movie_titles self) <->
     exists line, In line lines /\ x = fst (record_of line)) /\
    (In x (actor_names self) <->
     exists line, In line lines /\ In x (snd (record_of line))).
Proof.
  intros lines x self. split; [apply init_titles | apply init_actors].
Qed.

(** White space of any kind is removed at the two ends of a line, here a
    no-break space (U+00A0) and an em space (U+2003), and only there. *)
Example record_of_a_line_with_unicode_white_space :
  let line := (str [160%N] ++ "Movie A/Alice" ++ str [160%N] ++ "Smith"
                 ++ str [8195%N; 10%N])%string in
  record_of line = ("Movie A", [("Alice" ++ str [160%N] ++ "Smith")%string]) /\
  movie_titles (MovieGraph_init [line]) = ["Movie A"] /\
  actor_names (MovieGraph_init [line])
  = [("Alice" ++ str [160%N] ++ "Smith")%string].
Proof. vm_compute. repeat split. Qed.

(** X2: two nodes are adjacent exactly when one is the title and the other
    a cast member of one of the lines; so the adjacency is symmetric. *)
Theorem X2_edges_of_the_lines :
  forall lines u v,
    let self := MovieGraph_init lines in
    (adjacent (G self) u v <->
     exists line, In line lines /\
       exists i, In i (snd (record_of line)) /\
                 ((u = fst (record_of line) /\ v = i) \/
                  (u = i /\ v = fst (record_of line)))) /\
    (adjacent (G self) u v <-> adjacent (G self) v u).
Proof.
  intros lines u v self. split; [apply init_adjacent|].
  split; apply (bt_undirected _ (built_init lines)).
Qed.

(** X3: the graph has no isolated node: a string is a node exactly when it
    has a neighbour, that is, when it is an actor name or the title of a
    line with at least one cast member. *)
Theorem X3_no_isolated_node :
  forall lines x,
    let self := MovieGraph_init lines in
    (is_node (G self) x <-> exists y, adjacent (G self) x y) /\
    (is_node (G self) x <->
     In x (actor_names self) \/
     exists line, In line lines /\ x = fst (record_of line) /\
                  snd (record_of line) <> []).
Proof.
  intros lines x self. unfold self. split.
  - split.
    + intros H. apply init_nodes in H.
      destruct H as [line [Hl [i [Hi [Hx|Hx]]]]].
      * exists i. apply init_adjacent. exists line. split; [assumption|].
        exists i. auto.
      * exists (fst (record_of line)). apply init_adjacent.
        exists line. split; [assumption|]. exists i. auto.
    + intros [y Hy]. eapply adjacent_is_node; eassumption.
  - rewrite init_nodes, init_actors. split.
    + intros [line [Hl [i [Hi [Hx|Hx]]]]].
      * right. exists line. repeat split; try assumption.
        intros E. rewrite E in Hi. destruct Hi.
      * left. exists line. subst. auto.
    + intros [[line [Hl Hx]]|[line [Hl [Hx Hne]]]].
      * exists line. split; [assumption|]. exists x. auto.
      * exists line. split; [assumption|].
        destruct (snd (record_of line)) as [|i l]; [congruence|].
        exists i. split; [now left | auto].
Qed.

(** X4: every node is one key of the graph and every neighbour is listed
    once: a cast member credited twice, or a line given twice, makes one
    edge. *)
Theorem X4_each_node_and_edge_once :
  forall lines,
    let self := MovieGraph_init lines in
    NoDup (map fst (G self)) /\ forall u, NoDup (adj (G self) u).
Proof. intros lines self. apply simple_init. Qed.

(** X5: a title that never has a cast and is nobody's cast member is in
    the set of movie titles but is no node of the graph, and both queries
    raise [NodeNotFound] on it. *)
Theorem X5_title_without_cast_is_no_node :
  forall lines t,
    let self := MovieGraph_init lines in
    (exists line, In line lines /\ t = fst (record_of line)) ->
    (forall line, In line lines -> t = fst (record_of line) ->
                  snd (record_of line) = []) ->
    (forall line, In line lines -> ~ In t (snd (record_of line))) ->
    In t (movie_titles self) /\ ~ is_node (G self) t /\
    average_number self t = Raise NodeNotFound /\
    forall y, path_to_actor self t y = Raise NodeNotFound /\
              path_to_actor self y t = Raise NodeNotFound.
Proof.
  intros lines t self Ht Hcast Hact.
  assert (Hn : ~ is_node (G self) t).
  { intros H. apply init_nodes in H.
    destruct H as [line [Hl [i [Hi [Hx|Hx]]]]].
    - rewrite (Hcast line Hl Hx) in Hi. destruct Hi.
    - subst i. exact (Hact line Hl Hi). }
  assert (Hh : has_node (G self) t = false).
  { destruct (has_node (G self) t) eqn:E; [|reflexivity].
    apply has_node_is_node in E. contradiction. }
  split; [now apply init_titles|]. split; [assumption|]. split.
  - unfold average_number, shortest_path_length,
      single_source_shortest_path_length. now rewrite Hh.
  - intros y. unfold path_to_actor, shortest_path,
      bidirectional_shortest_path. rewrite Hh. simpl.
    split; [reflexivity|]. now rewrite orb_true_r.
Qed.

Lemma X5_witness :
  let lines := ["Lonely Movie"; "Movie A/Alice/Bob"] in
  let self := MovieGraph_init lines in
  (exists line, In line lines /\ "Lonely Movie" = fst (record_of line)) /\
  (forall line, In line lines -> "Lonely Movie" = fst (record_of line) ->
                snd (record_of line) = []) /\
  (forall line, In line lines ->
                ~ In "Lonely Movie" (snd (record_of line))) /\
  In "Lonely Movie" (movie_titles self) /\
  ~ is_node (G self) "Lonely Movie" /\
  average_number self "Lonely Movie" = Raise NodeNotFound /\
  forall y, path_to_actor self "Lonely Movie" y = Raise NodeNotFound /\
            path_to_actor self y "Lonely Movie" = Raise NodeNotFound.
Proof.
  intros lines self.
  assert (H1 : exists line, In line lines /\
                 "Lonely Movie" = fst (record_of line)).
  { exists "Lonely Movie". split; [now left | reflexivity]. }
  assert (H2 : forall line, In line lines ->
                 "Lonely Movie" = fst (record_of line) ->
                 snd (record_of line) = []).
  { intros line [<-|[<-|[]]]; [reflexivity | vm_compute; discriminate]. }
  assert (H3 : forall line, In line lines ->
                 ~ In "Lonely Movie" (snd (record_of line))).
  { intros line [<-|[<-|[]]]; by_computation. }
  split; [exact H1|]. split; [exact H2|]. split; [exact H3|].
  exact (X5_title_without_cast_is_no_node lines "Lonely Movie" H1 H2 H3).
Defined.

(** X6: a line whose record is the record of an earlier line changes
    nothing, not even the order of the dicts. *)
Theorem X6_repeated_line_changes_nothing :
  forall lines line line',
    In line' lines -> record_of line = record_of line' ->
    MovieGraph_init (lines ++ [line]) = MovieGraph_init lines.
Proof.
  intros lines line line' Hin Hrec.
  unfold MovieGraph_init. rewrite fold_left_app. simpl.
  fold (MovieGraph_init lines). apply add_line_present.
  - apply init_titles. exists line'. now rewrite Hrec.
  - intros i Hi. split; [|split].
    + apply init_actors. exists line'. now rewrite <- Hrec.
    + apply init_adjacent. exists line'. split; [assumption|].
      exists i. rewrite <- Hrec. auto.
    + apply init_adjacent. exists line'. split; [assumption|].
      exists i. rewrite <- Hrec. auto.
Qed.

Lemma X6_witness :
  let lines := ["Movie A/Alice/Bob"; "Movie B/Bob/Carol"] in
  In "Movie A/Alice/Bob" lines /\
  record_of " Movie A/Alice/Bob  " = record_of "Movie A/Alice/Bob" /\
  MovieGraph_init (lines ++ [" Movie A/Alice/Bob  "]) = MovieGraph_init lines.
Proof.
  intros lines.
  assert (H1 : In "Movie A/Alice/Bob" lines) by now left.
  assert (H2 : record_of " Movie A/Alice/Bob  " =
               record_of "Movie A/Alice/Bob") by (vm_compute; reflexivity).
  split; [exact H1|]. split; [exact H2|].
  exact (X6_repeated_line_changes_nothing lines _ _ H1 H2).
Defined.

(** X7: no movie title, actor name or node of the graph contains the
    separator [/]. *)
Theorem X7_no_separator_in_names :
  forall lines x,
    let self := MovieGraph_init lines in
    In x (movie_titles self) \/ In x (actor_names self) \/
    is_node (G self) x ->
    ~ In "/"%char (chars x).
Proof.
  intros lines x self H.
  assert (Hf : exists line,
             x = fst (record_of line) \/ In x (snd (record_of line))).
  { destruct H as [H|[H|H]].
    - apply init_titles in H. destruct H as [line [_ Hx]]. eauto.
    - apply init_actors in H. destruct H as [line [_ Hx]]. eauto.
    - apply init_nodes in H. destruct H as [line [_ [i [Hi [Hx|Hx]]]]];
        subst; eauto. }
  destruct Hf as [line Hx]. unfold record_of in Hx.
  destruct (split_fields_no_sep "/" (strip line)) as [H1 H2].
  destruct Hx as [->|Hx]; [assumption | now apply H2].
Qed.

Lemma X7_witness :
  (In "Movie A" (movie_titles one_movie) \/
   In "Movie A" (actor_names one_movie) \/
   is_node (G one_movie) "Movie A") /\
  ~ In "/"%char (chars "Movie A").
Proof.
  assert (H : In "Movie A" (movie_titles one_movie) \/
              In "Movie A" (actor_names one_movie) \/
              is_node (G one_movie) "Movie A") by (left; by_computation).
  split; [exact H|].
  exact (X7_no_separator_in_names ["Movie A/Alice/Bob"] "Movie A" H).
Defined.

(** X8: a line can be read back from its record: joining the title and the
    cast with [/] gives the line without the white space at its two ends,
    and what is left neither starts nor ends with a white space
    character. *)
Theorem X8_line_from_its_record :
  forall line,
    let (title, movie_list) := record_of line in
    join "/" title movie_list = strip line /\
    (exists l r, line = (l ++ strip line ++ r)%string /\
                 all_space l /\ all_space r) /\
    (forall w t, isspace w = true ->
                 strip line <> (w ++ t)%string /\
                 strip line <> (t ++ w)%string).
Proof.
  intros line. pose proof (split_fields_join "/" (strip line)) as Hj.
  unfold record_of. destruct (split_fields "/" (strip line)) as [title l].
  simpl in Hj. split; [exact Hj|]. unfold strip, rstrip, lstrip.
  destruct (strip_left_spec whitespace (String.length line) line)
    as [l1 [H1 Hl1]].
  destruct (strip_right_spec whitespace
              (strip_left whitespace (String.length line) line))
    as [r1 [H2 Hr1]].
  split.
  - exists l1, r1. split; [|now split]. now rewrite <- H2.
  - intros w t Hw. apply mem_In in Hw. split.
    + intros E. rewrite E, append_assoc in H2.
      assert (Hd : after_any whitespace
                     (strip_left whitespace (String.length line) line)
                   = None)
        by (apply strip_left_done; [exact whitespace_not_empty | lia]).
      exact (after_any_None _ _ Hd _ _ Hw H2).
    + now apply strip_right_done; [exact whitespace_not_empty|].
Qed.

(** * More on [MovieGraph.path_to_actor] *)

Lemma is_path_ends g s t p :
  is_path g s t p -> hd_error p = Some s /\ exists q, p = q ++ [t].
Proof.
  induction 1 as [x Hx | x y t p Ha Hp [IH1 [q IH2]]].
  - split; [reflexivity|]. now exists [].
  - split; [reflexivity|]. exists (x :: q). simpl. now rewrite IH2.
Qed.

(** From any node of a path the rest of the path leads to its end. *)
Lemma is_path_rest g s t p x :
  is_path g s t p -> In x p ->
  exists n, walk_len g x t n /\ S n <= length p.
Proof.
  induction 1 as [y Hy | y z t p Ha Hp IH]; intros Hx.
  - destruct Hx as [<-|[]]. exists 0. split; [now apply walk_here|].
    simpl. lia.
  - destruct Hx as [<-|Hx].
    + exists (length (y :: p) - 1). split.
      * apply is_path_walk. eapply path_cons; eassumption.
      * simpl. lia.
    + destruct (IH Hx) as [n [Hn Hle]]. exists n. split; [assumption|].
      simpl. lia.
Qed.

(** A shortest path goes through no node twice. *)
Lemma shortest_is_simple g s t p :
  is_path g s t p -> (forall n, walk_len g s t n -> length p <= S n) ->
  NoDup p.
Proof.
  induction 1 as [x Hx | x y t p Ha Hp IH]; intros Hmin.
  - repeat constructor. intros [].
  - constructor.
    + intros Hin. destruct (is_path_rest g y t p x Hp Hin) as [n [Hn Hle]].
      specialize (Hmin n Hn). simpl in Hmin. lia.
    + apply IH. intros n Hn.
      specialize (Hmin (S n) (walk_cons g x y t n Ha Hn)). simpl in Hmin.
      lia.
Qed.

Section ActorPaths.

Variable self : MovieGraph.
Hypothesis self_built : built self.
Hypothesis self_no_collision : no_collision self.

(** Between two actors, when no string is both a title and an actor name:
    the degree is half the hops of the shortest path. *)
Lemma path_to_actor_actors a b :
  In a (actor_names self) -> In b (actor_names self) ->
  connected (G self) a b ->
  exists p d,
    path_to_actor self a b = Ok (p, Z.of_nat d) /\
    is_path (G self) a b p /\
    (forall n, walk_len (G self) a b n -> length p <= S n) /\
    length p = S (2 * d).
Proof.
  intros Ha Hb Hc.
  destruct (path_to_actor_connected self (bt_undirected _ self_built) a b Hc)
    as [p [Hp [Hpath Hmin]]].
  pose proof (path_count self self_built self_no_collision a b p Hpath)
    as Hcount.
  rewrite (actor_not_movie self self_no_collision a Ha) in Hcount.
  rewrite (actor_not_movie self self_no_collision b Hb) in Hcount.
  simpl in Hcount.
  exists p, (length (filter (not_movie self) p) - 1).
  split; [rewrite Hp; do 2 f_equal; lia|].
  split; [assumption|]. split; [assumption | lia].
Qed.

End ActorPaths.

(** X9: for two connected nodes the path the query returns starts at the
    source, ends at the target and goes through no node twice. *)
Theorem X9_returned_path_is_simple :
  forall lines source target,
    let self := MovieGraph_init lines in
    connected (G self) source target ->
    exists p d,
      path_to_actor self source target = Ok (p, d) /\
      hd_error p = Some source /\ (exists q, p = q ++ [target]) /\
      NoDup p.
Proof.
  intros lines source target self Hc.
  pose proof (built_init lines) as Hb. fold self in Hb.
  destruct (path_to_actor_connected self (bt_undirected _ Hb) source target Hc)
    as [p [Hp [Hpath Hmin]]].
  destruct (is_path_ends _ _ _ _ Hpath) as [Hh Hl].
  eexists p, _. split; [exact Hp|]. split; [assumption|].
  split; [assumption|]. eapply shortest_is_simple; eassumption.
Qed.

Lemma X9_witness :
  connected (G one_movie) "Alice" "Bob" /\
  exists p d,
    path_to_actor one_movie "Alice" "Bob" = Ok (p, d) /\
    hd_error p = Some "Alice" /\ (exists q, p = q ++ ["Bob"]) /\
    NoDup p.
Proof.
  assert (Hc : connected (G one_movie) "Alice" "Bob").
  { apply connected_by_search;
      [apply (bt_undirected _ (built_init _)) | vm_compute; reflexivity]. }
  split; [exact Hc|].
  exact (X9_returned_path_is_simple ["Movie A/Alice/Bob"] "Alice" "Bob" Hc).
Defined.

(** X10: whatever the names are, the paths the query returns from [s] to
    [t] and from [t] to [s] have the same number of nodes. *)
Theorem X10_path_lengths_are_symmetric :
  forall lines s t,
    let self := MovieGraph_init lines in
    connected (G self) s t ->
    exists p q d e,
      path_to_actor self s t = Ok (p, d) /\
      path_to_actor self t s = Ok (q, e) /\
      length p = length q.
Proof.
  intros lines s t self Hc.
  pose proof (built_init lines) as Hb. fold self in Hb.
  pose proof (bt_undirected _ Hb) as Hu.
  assert (Hc' : connected (G self) t s).
  { destruct Hc as [n Hn]. exists n. now apply walk_sym. }
  destruct (path_to_actor_connected self Hu s t Hc) as [p [Hp [Hpp Hmp]]].
  destruct (path_to_actor_connected self Hu t s Hc') as [q [Hq [Hpq Hmq]]].
  eexists p, q, _, _. split; [exact Hp|]. split; [exact Hq|].
  pose proof (Hmp _ (walk_sym _ Hu _ _ _ (is_path_walk _ _ _ _ Hpq))) as H1.
  pose proof (Hmq _ (walk_sym _ Hu _ _ _ (is_path_walk _ _ _ _ Hpp))) as H2.
  destruct (is_path_nonempty _ _ _ _ Hpp) as [p' ->].
  destruct (is_path_nonempty _ _ _ _ Hpq) as [q' ->].
  simpl in *. lia.
Qed.

Lemma X10_witness :
  connected (G two_routes) "a" "b" /\
  exists p q d e,
    path_to_actor two_routes "a" "b" = Ok (p, d) /\
    path_to_actor two_routes "b" "a" = Ok (q, e) /\
    length p = length q.
Proof.
  assert (Hc : connected (G two_routes) "a" "b").
  { apply connected_by_search;
      [apply (bt_undirected _ (built_init _)) | vm_compute; reflexivity]. }
  split; [exact Hc|].
  exact (X10_path_lengths_are_symmetric
           ["M1/a/X"; "M4/T/b"; "M2/X/b"; "M3/a/T"; "T/z"] "a" "b" Hc).
Defined.

(** X11: when no string is both a movie title and an actor name, two
    different actors get the degree 1 exactly when they share a movie. *)
Theorem X11_shared_movie_iff_degree_one :
  forall lines a b,
    let self := MovieGraph_init lines in
    no_collision self ->
    In a (actor_names self) -> In b (actor_names self) -> a <> b ->
    ((exists m, adjacent (G self) a m /\ adjacent (G self) m b) <->
     exists p, path_to_actor self a b = Ok (p, 1%Z)).
Proof.
  intros lines a b self Hnc Ha Hb Hab.
  pose proof (built_init lines) as Hbt. fold self in Hbt.
  clearbody self. pose proof (bt_undirected _ Hbt) as Hu.
  assert (Hdeg : connected (G self) a b ->
                 exists p d, path_to_actor self a b = Ok (p, Z.of_nat d) /\
                   is_path (G self) a b p /\
                   (forall n, walk_len (G self) a b n -> length p <= S n) /\
                   length p = S (2 * d) /\ d <> 0).
  { intros Hc.
    destruct (path_to_actor_actors self Hbt Hnc a b Ha Hb Hc)
      as (p & d & Hp & Hpath & Hmin & Hlen).
    exists p, d. repeat (split; [assumption|]). intros ->.
    inversion Hpath as [x Hx | x y t q Hxy Hq]; subst; [congruence|].
    destruct (is_path_nonempty _ _ _ _ Hq) as [q' ->]. simpl in Hlen. lia. }
  split.
  - intros [m [H1 H2]].
    assert (Hw : walk_len (G self) a b 2).
    { eapply walk_step; [|exact H2]. eapply walk_step; [|exact H1].
      apply walk_here. eapply adjacent_is_node; eassumption. }
    destruct (Hdeg (ex_intro _ 2 Hw)) as (p & d & Hp & _ & Hmin & Hlen & Hd).
    specialize (Hmin 2 Hw). exists p. rewrite Hp.
    assert (d = 1) as -> by lia. reflexivity.
  - intros [p Hp].
    assert (Hc : connected (G self) a b).
    { destruct (path_to_actor_spec self Hu a b (bt_actors _ Hbt a Ha)
                  (bt_actors _ Hbt b Hb)) as [[q [_ [Hq _]]]|[E _]].
      - exists (length q - 1). now apply is_path_walk.
      - rewrite E in Hp. discriminate. }
    destruct (Hdeg Hc) as (q & d & Hq & Hpath & _ & Hlen & _).
    rewrite Hq in Hp. injection Hp as -> Hd.
    assert (d = 1) as -> by lia. simpl in Hlen.
    inversion Hpath as [x Hx | x y t r Hxy Hr]; subst; [congruence|].
    inversion Hr as [x Hx | x z t r' Hyz Hr']; subst;
      [simpl in Hlen; lia|].
    inversion Hr' as [x Hx | x z' t r'' Hzz Hr'']; subst.
    + exists y. now split.
    + destruct (is_path_nonempty _ _ _ _ Hr'') as [r3 ->].
      simpl in Hlen. lia.
Qed.

Lemma X11_witness :
  no_collision one_movie /\
  In "Alice" (actor_names one_movie) /\ In "Bob" (actor_names one_movie) /\
  "Alice" <> "Bob" /\
  ((exists m, adjacent (G one_movie) "Alice" m /\
              adjacent (G one_movie) m "Bob") <->
   exists p, path_to_actor one_movie "Alice" "Bob" = Ok (p, 1%Z)).
Proof.
  assert (Hnc : no_collision one_movie) by by_computation.
  assert (Ha : In "Alice" (actor_names one_movie)) by by_computation.
  assert (Hb : In "Bob" (actor_names one_movie)) by by_computation.
  assert (Hab : "Alice" <> "Bob") by discriminate.
  repeat (split; [assumption|]).
  exact (X11_shared_movie_iff_degree_one ["Movie A/Alice/Bob"]
           "Alice" "Bob" Hnc Ha Hb Hab).
Defined.

(** X12: when no string is both a movie title and an actor name, the
    degrees obey the triangle inequality: the degree from [a] to [c] is at
    most the degree from [a] to [b] plus the degree from [b] to [c]. *)
Theorem X12_degrees_triangle_inequality :
  forall lines a b c,
    let self := MovieGraph_init lines in
    no_collision self ->
    In a (actor_names self) -> In b (actor_names self) ->
    In c (actor_names self) ->
    connected (G self) a b -> connected (G self) b c ->
    exists pab pbc pac dab dbc dac,
      path_to_actor self a b = Ok (pab, dab) /\
      path_to_actor self b c = Ok (pbc, dbc) /\
      path_to_actor self a c = Ok (pac, dac) /\
      (dac <= dab + dbc)%Z.
Proof.
  intros lines a b c self Hnc Ha Hb Hc Hab Hbc.
  pose proof (built_init lines) as Hbt. fold self in Hbt.
  clearbody self.
  destruct (path_to_actor_actors self Hbt Hnc a b Ha Hb Hab)
    as (pab & dab & Hpab & Hpath1 & _ & Hl1).
  destruct (path_to_actor_actors self Hbt Hnc b c Hb Hc Hbc)
    as (pbc & dbc & Hpbc & Hpath2 & _ & Hl2).
  pose proof (walk_app _ _ _ _ _ _ (is_path_walk _ _ _ _ Hpath1)
                (is_path_walk _ _ _ _ Hpath2)) as Hw.
  destruct (path_to_actor_actors self Hbt Hnc a c Ha Hc (ex_intro _ _ Hw))
    as (pac & dac & Hpac & _ & Hmin & Hl3).
  specialize (Hmin _ Hw).
  exists pab, pbc, pac, (Z.of_nat dab), (Z.of_nat dbc), (Z.of_nat dac).
  repeat (split; [assumption|]). lia.
Qed.

Lemma X12_witness :
  let lines := ["Movie A/Alice/Bob"; "Movie B/Bob/Carol"] in
  let self := MovieGraph_init lines in
  no_collision self /\
  In "Alice" (actor_names self) /\ In "Bob" (actor_names self) /\
  In "Carol" (actor_names self) /\
  connected (G self) "Alice" "Bob" /\ connected (G self) "Bob" "Carol" /\
  exists pab pbc pac dab dbc dac,
    path_to_actor self "Alice" "Bob" = Ok (pab, dab) /\
    path_to_actor self "Bob" "Carol" = Ok (pbc, dbc) /\
    path_to_actor self "Alice" "Carol" = Ok (pac, dac) /\
    (dac <= dab + dbc)%Z.
Proof.
  intros lines self.
  assert (Hnc : no_collision self) by by_computation.
  assert (Ha : In "Alice" (actor_names self)) by by_computation.
  assert (Hb : In "Bob" (actor_names self)) by by_computation.
  assert (Hc : In "Carol" (actor_names self)) by by_computation.
  assert (Hab : connected (G self) "Alice" "Bob").
  { apply connected_by_search;
      [apply (bt_undirected _ (built_init _)) | vm_compute; reflexivity]. }
  assert (Hbc : connected (G self) "Bob" "Carol").
  { apply connected_by_search;
      [apply (bt_undirected _ (built_init _)) | vm_compute; reflexivity]. }
  repeat (split; [assumption|]).
  exact (X12_degrees_triangle_inequality lines "Alice" "Bob" "Carol"
           Hnc Ha Hb Hc Hab Hbc).
Defined.

Lemma filter_none {A : Type} (f : A -> bool) (l : list A) :
  filter f l = [] <-> forall x, In x l -> f x = false.
Proof.
  induction l as [|a l IH]; simpl.
  - split; [intros _ x [] | reflexivity].
  - destruct (f a) eqn:E.
    + split; [discriminate|]. intros H.
      rewrite (H a (or_introl eq_refl)) in E. discriminate.
    + rewrite IH. split.
      * intros H x [<-|Hx]; auto.
      * intros H x Hx. apply H. now right.
Qed.

(** X13: the two queries agree.  For two connected nodes, the number of
    hops of the path [path_to_actor] returns from [s] to [t] is the length
    [average_number] works with for [t] when its target is [s]; between two
    actors, when no string is both a title and an actor name, the degree
    is the value [average_number] averages for [t]. *)
Theorem X13_queries_agree :
  forall lines s t,
    let self := MovieGraph_init lines in
    connected (G self) s t ->
    exists p d all_paths,
      path_to_actor self s t = Ok (p, d) /\
      shortest_path_length (G self) s = Ok all_paths /\
      In (t, length p - 1) all_paths /\
      (no_collision self ->
       In s (actor_names self) -> In t (actor_names self) ->
       (0 <= d)%Z /\ In (t, 2 * Z.to_nat d) all_paths /\
       In (Z.to_nat d) (degrees all_paths)).
Proof.
  intros lines s t self Hc.
  pose proof (built_init lines) as Hbt. fold self in Hbt.
  clearbody self. pose proof (bt_undirected _ Hbt) as Hu.
  destruct (path_to_actor_connected self Hu s t Hc) as [p [Hp [Hpath Hmin]]].
  assert (Hs : is_node (G self) s).
  { destruct Hc as [n Hn]. now apply (walk_len_is_node _ Hu) in Hn. }
  destruct (single_source_shortest_path_length_spec (G self) Hu s Hs)
    as [out [Ho [_ [Hd _]]]].
  assert (Hin : In (t, length p - 1) out).
  { apply Hd. split; [now apply is_path_walk|].
    intros n Hn. specialize (Hmin n Hn). lia. }
  eexists p, _, out. split; [exact Hp|]. split; [exact Ho|].
  split; [exact Hin|]. intros Hnc Ha Hb.
  pose proof (path_count self Hbt Hnc s t p Hpath) as Hcount.
  rewrite (actor_not_movie self Hnc s Ha),
    (actor_not_movie self Hnc t Hb) in Hcount.
  simpl in Hcount.
  assert (E : 2 * Z.to_nat (Z.of_nat (length (filter (not_movie self) p)) - 1)
              = length p - 1) by lia.
  split; [lia|]. rewrite E. split; [exact Hin|].
  replace (Z.to_nat (Z.of_nat (length (filter (not_movie self) p)) - 1))
    with ((length p - 1) / 2).
  - apply (degrees_In out t); [exact Hin|].
    rewrite <- E. apply Nat.even_spec. eexists. reflexivity.
  - rewrite <- E, Nat.mul_comm. apply Nat.div_mul. discriminate.
Qed.

Lemma X13_witness :
  connected (G one_movie) "Alice" "Bob" /\
  no_collision one_movie /\
  In "Alice" (actor_names one_movie) /\ In "Bob" (actor_names one_movie) /\
  exists p d all_paths,
    path_to_actor one_movie "Alice" "Bob" = Ok (p, d) /\
    shortest_path_length (G one_movie) "Alice" = Ok all_paths /\
    In ("Bob", length p - 1) all_paths /\
    (no_collision one_movie ->
     In "Alice" (actor_names one_movie) ->
     In "Bob" (actor_names one_movie) ->
     (0 <= d)%Z /\ In ("Bob", 2 * Z.to_nat d) all_paths /\
     In (Z.to_nat d) (degrees all_paths)).
Proof.
  assert (Hc : connected (G one_movie) "Alice" "Bob").
  { apply connected_by_search;
      [apply (bt_undirected _ (built_init _)) | vm_compute; reflexivity]. }
  split; [exact Hc|]. split; [by_computation|].
  split; [by_computation|]. split; [by_computation|].
  exact (X13_queries_agree ["Movie A/Alice/Bob"] "Alice" "Bob" Hc).
Defined.

(** X14: the degree is at least -1 and at most the number of hops of the
    returned path; it is -1 exactly when every node of that path, the two
    ends included, is a movie title, so it is at least 0 as soon as the
    source or the target is no movie title. *)
Theorem X14_degree_bounds :
  forall lines source target,
    let self := MovieGraph_init lines in
    connected (G self) source target ->
    exists p d,
      path_to_actor self source target = Ok (p, d) /\
      (-1 <= d <= Z.of_nat (length p) - 1)%Z /\
      (d = (-1)%Z <-> forall x, In x p -> In x (movie_titles self)) /\
      (not_movie self source = true \/ not_movie self target = true ->
       (0 <= d)%Z).
Proof.
  intros lines source target self Hc.
  pose proof (built_init lines) as Hbt. fold self in Hbt.
  clearbody self. pose proof (bt_undirected _ Hbt) as Hu.
  destruct (path_to_actor_connected self Hu source target Hc)
    as [p [Hp [Hpath Hmin]]].
  pose proof (filter_length_le (not_movie self) p) as Hle.
  assert (Hnone : length (filter (not_movie self) p) = 0 <->
                  forall x, In x p -> In x (movie_titles self)).
  { rewrite length_zero_iff_nil, filter_none. unfold not_movie.
    split; intros H x Hx; specialize (H x Hx).
    - apply mem_In. now destruct (mem x (movie_titles self)).
    - apply mem_In in H. now rewrite H. }
  eexists p, _. split; [exact Hp|]. split; [lia|]. split.
  - rewrite <- Hnone. lia.
  - intros Hor.
    assert (length (filter (not_movie self) p) <> 0); [|lia].
    rewrite Hnone. intros Hall.
    destruct (is_path_ends _ _ _ _ Hpath) as [Hh [q Hq]].
    destruct Hor as [H|H]; unfold not_movie in H.
    + destruct p as [|x p']; [discriminate|]. injection Hh as ->.
      rewrite (proj2 (mem_In _ _) (Hall source (or_introl eq_refl))) in H.
      discriminate.
    + assert (Ht : In target p)
        by (rewrite Hq; apply in_or_app; right; now left).
      rewrite (proj2 (mem_In _ _) (Hall target Ht)) in H. discriminate.
Qed.

Lemma X14_witness :
  connected (G title_in_cast) "X" "X" /\
  exists p d,
    path_to_actor title_in_cast "X" "X" = Ok (p, d) /\
    (-1 <= d <= Z.of_nat (length p) - 1)%Z /\
    (d = (-1)%Z <-> forall x, In x p -> In x (movie_titles title_in_cast)) /\
    (not_movie title_in_cast "X" = true \/
     not_movie title_in_cast "X" = true -> (0 <= d)%Z).
Proof.
  assert (Hc : connected (G title_in_cast) "X" "X").
  { apply connected_by_search;
      [apply (bt_undirected _ (built_init _)) | vm_compute; reflexivity]. }
  split; [exact Hc|].
  exact (X14_degree_bounds ["X/A"; "M/X"] "X" "X" Hc).
Defined.

(** * More on [MovieGraph.average_number] *)

(** X15: [average_number] returns a figure and a mean exactly for the
    nodes of the graph, and raises [NodeNotFound] exactly for the other
    strings; it raises nothing else. *)
Theorem X15_average_number_defined_on_nodes :
  forall lines target,
    let self := MovieGraph_init lines in
    (is_node (G self) target <->
     exists fig avg, average_number self target = Ok (fig, avg)) /\
    (~ is_node (G self) target <->
     average_number self target = Raise NodeNotFound).
Proof.
  intros lines target self.
  pose proof (bt_undirected _ (built_init lines)) as Hu. fold self in Hu.
  assert (Hno : ~ is_node (G self) target ->
                average_number self target = Raise NodeNotFound).
  { intros Hn. unfold average_number, shortest_path_length,
      single_source_shortest_path_length.
    destruct (has_node (G self) target) eqn:E; [|reflexivity].
    apply has_node_is_node in E. contradiction. }
  assert (Hyes : is_node (G self) target ->
                 exists fig avg, average_number self target = Ok (fig, avg)).
  { intros Ht. destruct (average_number_spec self Hu target Ht)
      as (out & fig & avg & _ & _ & _ & _ & _ & _ & Havg). eauto. }
  split; split; try assumption.
  - intros [fig [avg E]].
    destruct (in_dec string_dec target (map fst (G self))) as [H|H];
      [exact H|]. rewrite (Hno H) in E. discriminate.
  - intros E Ht. destruct (Hyes Ht) as [fig [avg E']].
    rewrite E in E'. discriminate.
Qed.

Lemma nth_hist values i :
  i < 7 -> nth i (hist values) 0 = count_occ Nat.eq_dec values i.
Proof.
  intros Hi. unfold hist, bins.
  do 7 (destruct i as [|i]; [reflexivity|]). lia.
Qed.








Lemma NoDup_keys_filter (f : node * nat -> bool) (out : lengths) :
  NoDup (map fst out) -> NoDup (map fst (filter f out)).
Proof.
  induction out as [|[x d] l IH]; intros Hnd; [constructor|].
  inversion Hnd as [|y ys Hnot Hnd']; subst.
  cbn [filter]. destruct (f (x, d)); [|now apply IH].
  cbn [map fst]. constructor; [|now apply IH].
  intros Hin. apply Hnot. apply in_map_iff in Hin.
  destruct Hin as [kv [Hkv Hin]]. apply filter_In in Hin.
  apply in_map_iff. exists kv. tauto.
Qed.

Lemma half_of_even d i : d mod 2 = 0 -> (d / 2 = i <-> d = 2 * i).
Proof. intros H. pose proof (Nat.div_mod_eq d 2). lia. Qed.

Lemma count_degree all_paths i :
  count_occ Nat.eq_dec (degrees all_paths) i =
  length (filter (fun kv => snd kv =? 2 * i) all_paths).
Proof.
  unfold degrees. induction all_paths as [|[x d] l IH]; [reflexivity|].
  cbn [filter snd]. destruct (Nat.eqb_spec (d mod 2) 0) as [He|Hne].
  - cbn [map snd count_occ]. rewrite IH.
    destruct (Nat.eq_dec (d / 2) i) as [E|E];
      destruct (Nat.eqb_spec d (2 * i)) as [E'|E']; try reflexivity;
      exfalso; apply (half_of_even d i He) in E || apply E;
      try contradiction; now apply (half_of_even d i He).
  - rewrite IH. destruct (Nat.eqb_spec d (2 * i)) as [E'|E']; [|reflexivity].
    exfalso. apply Hne. subst d. rewrite Nat.mul_comm.
    apply Nat.Div0.mod_mul.
Qed.

(** X17: bar [i] of the histogram, for [i] from 0 to 6, is the number of
    nodes whose distance from the target is exactly [2 * i] hops. *)
Theorem X17_bar_counts_nodes_at_twice_the_degree :
  forall lines target i,
    let self := MovieGraph_init lines in
    is_node (G self) target -> i < 7 ->
    exists fig avg l,
      average_number self target = Ok (fig, avg) /\
      NoDup l /\ nth i (bars fig) 0 = length l /\
      forall x, In x l <-> dist_eq (G self) target x (2 * i).
Proof.
  intros lines target i self Ht Hi.
  pose proof (built_init lines) as Hbt. fold self in Hbt.
  clearbody self.
  destruct (average_number_spec self (bt_undirected _ Hbt) target Ht)
    as (out & fig & avg & Ho & Hnd & Hd & H0 & Hm & Hbars & Havg).
  exists fig, avg, (map fst (filter (fun kv => snd kv =? 2 * i) out)).
  split; [assumption|]. split; [now apply NoDup_keys_filter|]. split.
  - rewrite Hbars, nth_hist, count_degree, length_map by assumption.
    reflexivity.
  - intros x. rewrite <- Hd, in_map_iff. split.
    + intros [[y d] [Hy Hin]]. simpl in Hy. subst y.
      apply filter_In in Hin. destruct Hin as [Hin E].
      cbn [snd] in E. apply Nat.eqb_eq in E. now subst d.
    + intros Hin. exists (x, 2 * i). split; [reflexivity|].
      apply filter_In. split; [assumption|]. apply Nat.eqb_refl.
Qed.

Lemma X17_witness :
  is_node (G one_movie) "Alice" /\ 1 < 7 /\
  exists fig avg l,
    average_number one_movie "Alice" = Ok (fig, avg) /\
    NoDup l /\ nth 1 (bars fig) 0 = length l /\
    forall x, In x l <-> dist_eq (G one_movie) "Alice" x (2 * 1).
Proof.
  assert (Ht : is_node (G one_movie) "Alice") by by_computation.
  assert (Hi : 1 < 7) by lia.
  split; [exact Ht|]. split; [exact Hi|].
  exact (X17_bar_counts_nodes_at_twice_the_degree
           ["Movie A/Alice/Bob"] "Alice" 1 Ht Hi).
Defined.



(** * The script *)





Section Script.

Variable obj : MovieGraph.
Hypothesis obj_built : built obj.


End Script.





(** A name that ends with a NUL character comes back from the draw without
    it, and is then no node of the graph. *)
Example random_draw_of_a_name_ending_in_nul :
  let lines := [("Movie A/Bob" ++ String zero EmptyString)%string] in
  actor_names (MovieGraph_init lines)
  = [("Bob" ++ String zero EmptyString)%string] /\
  choice (actor_names (MovieGraph_init lines)) 0 = Some "Bob" /\
  script lines (mkWidgets true "" "" false) 0 0
  = (page, Stopped NodeNotFound).
Proof. vm_compute. repeat split. Qed.

